(** * Dialogue translation tool (app.py): a shallow embedding and its properties

    The program is a Python script.  Python text ([str]) is a sequence of
    Unicode code points, [bytes] a sequence of octets, [int] an unbounded
    integer.  Library calls the script relies on ([str.strip], [str.split],
    [str.join], [re.match], [re.sub], [str.encode], [bytes.decode],
    [Path.stem], subscripting of decoded JSON) are modelled by the functions
    of the first modules below, with the behaviour CPython documents for them;
    the functions of [app.py] itself keep their names. *)

From Stdlib Require Import List Bool Arith NArith ZArith Lia.
From Stdlib Require Strings.String.
From Stdlib Require Import Strings.Byte.
Import ListNotations.
Import String.StringSyntax.

Set Implicit Arguments.

(* ================================================================== *)
(** ** Text: Python [str] as a list of code points *)
(* ================================================================== *)

Definition char := N.
Definition str := list char.
Definition bytes := list byte.

Definition nl : char := 10%N.        (* "\n" *)
Definition colon : char := 58%N.     (* ":"  *)
Definition lbracket : char := 91%N.  (* "["  *)
Definition rbracket : char := 93%N.  (* "]"  *)
Definition space : char := 32%N.     (* " "  *)
Definition star : char := 42%N.      (* "*"  *)
Definition dquote : char := 34%N.    (* the double quote *)

Definition str_eqb (a b : str) : bool :=
  if list_eq_dec N.eq_dec a b then true else false.

(** [Py_UNICODE_ISSPACE]: the characters [str.strip()] removes and the
    characters [\s] matches in a [str] pattern. *)
Definition isspace (c : char) : bool :=
  ((9 <=? c) && (c <=? 13) || (28 <=? c) && (c <=? 32)
   || (c =? 133) || (c =? 160) || (c =? 5760)
   || (8192 <=? c) && (c <=? 8202)
   || (c =? 8232) || (c =? 8233) || (c =? 8239) || (c =? 8287)
   || (c =? 12288))%N.

Fixpoint lstrip (s : str) : str :=
  match s with
  | c :: s' => if isspace c then lstrip s' else s
  | [] => []
  end.

Definition rstrip (s : str) : str := rev (lstrip (rev s)).

(** [s.strip()] *)
Definition strip (s : str) : str := rstrip (lstrip s).

(** [s.split(sep)] for a one-character separator: never the empty list. *)
Fixpoint split (sep : char) (s : str) : list str :=
  match s with
  | [] => [[]]
  | c :: s' =>
      if (c =? sep)%N then [] :: split sep s'
      else match split sep s' with
           | l :: ls => (c :: l) :: ls
           | [] => [[c]]
           end
  end.

(** [sep.join(ls)] *)
Fixpoint join (sep : str) (ls : list str) : str :=
  match ls with
  | [] => []
  | l :: ls' =>
      match ls' with
      | [] => l
      | _ :: _ => l ++ sep ++ join sep ls'
      end
  end.

(** [c in s] *)
Definition contains (c : char) (s : str) : bool := existsb (N.eqb c) s.

(** The longest prefix of characters of a class, and what is behind it. *)
Fixpoint takewhile (p : char -> bool) (s : str) : str :=
  match s with
  | c :: s' => if p c then c :: takewhile p s' else []
  | [] => []
  end.

Fixpoint dropwhile (p : char -> bool) (s : str) : str :=
  match s with
  | c :: s' => if p c then dropwhile p s' else s
  | [] => []
  end.

(* ------------------------------------------------------------------ *)
(** *** UTF-8 ([str.encode('utf-8')], [bytes.decode('utf-8')], both strict) *)

Definition octet (n : N) : byte :=
  match Byte.of_N n with Some b => b | None => x00 end.

Definition is_surrogate (c : char) : bool := ((55296 <=? c) && (c <=? 57343))%N.

(** The octets of one code point; [None] where the strict codec raises
    [UnicodeEncodeError] (a lone surrogate), and for numbers that are no
    code point at all. *)
Definition encode_char (c : char) : option bytes :=
  (if c <? 128 then Some [octet c]
   else if c <? 2048 then
     Some [octet (192 + N.shiftr c 6); octet (128 + N.land c 63)]
   else if c <? 65536 then
     if is_surrogate c then None
     else Some [octet (224 + N.shiftr c 12);
                octet (128 + N.land (N.shiftr c 6) 63);
                octet (128 + N.land c 63)]
   else if c <? 1114112 then
     Some [octet (240 + N.shiftr c 18);
           octet (128 + N.land (N.shiftr c 12) 63);
           octet (128 + N.land (N.shiftr c 6) 63);
           octet (128 + N.land c 63)]
   else None)%N.

Fixpoint utf8_encode (s : str) : option bytes :=
  match s with
  | [] => Some []
  | c :: s' =>
      match encode_char c, utf8_encode s' with
      | Some b, Some bs => Some (b ++ bs)
      | _, _ => None
      end
  end.

(** The payload of a continuation octet [10xxxxxx]. *)
Definition continuation (b : byte) : option N :=
  let n := Byte.to_N b in
  (if (128 <=? n) && (n <? 192) then Some (N.land n 63) else None)%N.

(** Strict decoding: [None] where Python raises [UnicodeDecodeError]
    (stray or missing continuation octets, overlong forms, surrogates,
    values above U+10FFFF). *)
Fixpoint utf8_decode (bs : bytes) : option str :=
  match bs with
  | [] => Some []
  | b0 :: t0 =>
      let n0 := Byte.to_N b0 in
      (if n0 <? 128 then option_map (cons n0) (utf8_decode t0)
       else if n0 <? 192 then None
       else if n0 <? 224 then
         match t0 with
         | b1 :: t1 =>
             match continuation b1 with
             | Some c1 =>
                 let cp := N.shiftl (N.land n0 31) 6 + c1 in
                 if 128 <=? cp then option_map (cons cp) (utf8_decode t1)
                 else None
             | None => None
             end
         | _ => None
         end
       else if n0 <? 240 then
         match t0 with
         | b1 :: b2 :: t2 =>
             match continuation b1, continuation b2 with
             | Some c1, Some c2 =>
                 let cp := N.shiftl (N.land n0 15) 12 + N.shiftl c1 6 + c2 in
                 if (2048 <=? cp) && negb (is_surrogate cp)
                 then option_map (cons cp) (utf8_decode t2)
                 else None
             | _, _ => None
             end
         | _ => None
         end
       else if n0 <? 248 then
         match t0 with
         | b1 :: b2 :: b3 :: t3 =>
             match continuation b1, continuation b2, continuation b3 with
             | Some c1, Some c2, Some c3 =>
                 let cp := N.shiftl (N.land n0 7) 18 + N.shiftl c1 12
                           + N.shiftl c2 6 + c3 in
                 if (65536 <=? cp) && (cp <? 1114112)
                 then option_map (cons cp) (utf8_decode t3)
                 else None
             | _, _, _ => None
             end
         | _ => None
         end
       else None)%N
  end.

(** A literal of the source file (which is UTF-8) as a [str]. *)
Definition u (s : String.string) : str :=
  match utf8_decode (String.list_byte_of_string s) with
  | Some l => l
  | None => []
  end.
Delimit Scope string_scope with string.
Arguments u s%_string.

(* ================================================================== *)
(** ** Regular expressions: the fragment of [re] the script uses *)
(* ================================================================== *)

(** The three patterns of the script are sequences of [^], [$] and
    one-character classes under a quantifier, two of them wrapped in a
    capturing group.  The matcher is the backtracking one of [re]: a greedy
    quantifier tries the longest repetition first, a lazy one the shortest. *)
Module Re.

Inductive quant :=
| One        (* x   *)
| Star       (* x*  *)
| Plus       (* x+  *)
| LazyStar.  (* x*? *)

Inductive node :=
| Bol                                              (* ^ *)
| Eol                                              (* $ *)
| Rep (group : bool) (q : quant) (p : char -> bool).

Definition regex := list node.

(** Character classes. *)
Definition lit (c : char) : char -> bool := N.eqb c.
Definition dot : char -> bool := fun c => negb (c =? nl)%N.   (* no DOTALL *)
Definition not_colon : char -> bool := fun c => negb (c =? colon)%N.
Definition ws : char -> bool := isspace.

(** A continuation receives whether the position is still the start of the
    string, and the text that is left; it answers with the text matched by
    each of the remaining nodes. *)
Definition cont := bool -> str -> option (list str).

Definition here (k : cont) (bos : bool) (s : str) : option (str * list str) :=
  option_map (pair []) (k bos s).

Definition more (c : char) (r : option (str * list str)) :
  option (str * list str) :=
  match r with
  | Some (seg, segs) => Some (c :: seg, segs)
  | None => None
  end.

Fixpoint greedy (p : char -> bool) (k : cont) (bos : bool) (s : str) :
  option (str * list str) :=
  match s with
  | c :: s' =>
      if p c then
        match more c (greedy p k false s') with
        | Some r => Some r
        | None => here k bos s
        end
      else here k bos s
  | [] => here k bos s
  end.

Fixpoint lazy (p : char -> bool) (k : cont) (bos : bool) (s : str) :
  option (str * list str) :=
  match here k bos s with
  | Some r => Some r
  | None =>
      match s with
      | c :: s' => if p c then more c (lazy p k false s') else None
      | [] => None
      end
  end.

Definition run (q : quant) (p : char -> bool) (k : cont) (bos : bool)
  (s : str) : option (str * list str) :=
  match q with
  | Star => greedy p k bos s
  | LazyStar => lazy p k bos s
  | Plus =>
      match s with
      | c :: s' => if p c then more c (greedy p k false s') else None
      | [] => None
      end
  | One =>
      match s with
      | c :: s' => if p c then more c (here k false s') else None
      | [] => None
      end
  end.

(** [$] without MULTILINE: at the end, or just before a final newline. *)
Definition at_eol (s : str) : bool :=
  match s with
  | [] => true
  | c :: [] => (c =? nl)%N
  | _ => false
  end.

(** The texts matched by the nodes of [r], in order, when [r] matches a
    prefix of [s]. *)
Fixpoint exec (r : regex) (bos : bool) (s : str) {struct r} :
  option (list str) :=
  match r with
  | [] => Some []
  | Bol :: r' => if bos then option_map (cons []) (exec r' bos s) else None
  | Eol :: r' =>
      if at_eol s then option_map (cons []) (exec r' bos s) else None
  | Rep _ q p :: r' =>
      option_map (fun m => fst m :: snd m) (run q p (exec r') bos s)
  end.

(** The texts of the capturing groups among the nodes' texts. *)
Fixpoint groups (r : regex) (segs : list str) : list str :=
  match r, segs with
  | Rep true _ _ :: r', g :: segs' => g :: groups r' segs'
  | _ :: r', _ :: segs' => groups r' segs'
  | _, _ => []
  end.

(** [re.match(r, s)]: the match object, reduced to its groups
    ([group n] is [nth (n - 1)]). *)
Definition rmatch (r : regex) (s : str) : option (list str) :=
  option_map (groups r) (exec r true s).

(** [m.group(n)] for [n >= 1]. *)
Definition group (n : nat) (m : list str) : str := nth (n - 1) m [].

(** [re.search(r, s)] succeeds: some position of [s] starts a match. *)
Fixpoint search_from (r : regex) (bos : bool) (s : str) : bool :=
  match exec r bos s with
  | Some _ => true
  | None =>
      match s with
      | [] => false
      | _ :: s' => search_from r false s'
      end
  end.

Definition search (r : regex) (s : str) : bool := search_from r true s.

(** [re.sub(r, repl, s)] for a literal replacement: scan from the left,
    replace each match and go on behind it.  [skip] counts the characters
    of the current match that are still to be dropped. *)
Fixpoint sub_from (r : regex) (repl : str) (bos : bool) (skip : nat)
  (s : str) : str :=
  match skip with
  | S n =>
      match s with
      | _ :: s' => sub_from r repl false n s'
      | [] => []
      end
  | O =>
      match exec r bos s with
      | Some segs =>
          match length (concat segs), s with
          | S n, _ :: s' => repl ++ sub_from r repl false n s'
          | _, c :: s' => repl ++ c :: sub_from r repl false 0 s'
          | _, [] => repl
          end
      | None =>
          match s with
          | c :: s' => c :: sub_from r repl false 0 s'
          | [] => []
          end
      end
  end.

Definition sub (r : regex) (repl : str) (s : str) : str :=
  sub_from r repl true 0 s.

End Re.

(* ================================================================== *)
(** ** DialogueTranslator: the text functions *)
(* ================================================================== *)

(** [r'\[.*?\]'] *)
Definition tag_re : Re.regex :=
  [Re.Rep false Re.One (Re.lit lbracket);
   Re.Rep false Re.LazyStar Re.dot;
   Re.Rep false Re.One (Re.lit rbracket)].

(** [r'^[^:]+:\s*.+$'] *)
Definition dialogue_re : Re.regex :=
  [Re.Bol;
   Re.Rep false Re.Plus Re.not_colon;
   Re.Rep false Re.One (Re.lit colon);
   Re.Rep false Re.Star Re.ws;
   Re.Rep false Re.Plus Re.dot;
   Re.Eol].

(** The pattern of [generate_markdown], token by token:
    [^]  [([^:]+)]  [:]  [\s*]  [( .* )]  [$] *)
Definition speaker_re : Re.regex :=
  [Re.Bol;
   Re.Rep true Re.Plus Re.not_colon;
   Re.Rep false Re.One (Re.lit colon);
   Re.Rep false Re.Star Re.ws;
   Re.Rep true Re.Star Re.dot;
   Re.Eol].

(** [return re.sub(r'\[.*?\]', '', content)] *)
Definition clean_tags_from_content (content : str) : str :=
  Re.sub tag_re [] content.

(** The test of one line in the loop of [count_dialogues]:
    [line = line.strip()], then
    [if line and ':' in line: if re.match(...): count += 1]. *)
Definition is_dialogue (line : str) : bool :=
  let line := strip line in
  match line with
  | [] => false
  | _ :: _ =>
      if contains colon line then
        match Re.rmatch dialogue_re line with
        | Some _ => true
        | None => false
        end
      else false
  end.

(** The loop of [count_dialogues] over the lines that are left, with the
    counter so far. *)
Fixpoint count_loop (lines : list str) (count : Z) : Z :=
  match lines with
  | [] => count
  | line :: rest =>
      count_loop rest (if is_dialogue line then count + 1 else count)%Z
  end.

Definition count_dialogues (content : str) : Z :=
  count_loop (split nl content) 0%Z.

(** The body of the loop of [generate_markdown]: what is appended to
    [md_lines] for one line. *)
Definition md_line (line : str) : str :=
  let line := strip line in
  match line with
  | [] => []
  | _ :: _ =>
      if contains colon line then
        match Re.rmatch speaker_re line with
        | Some m =>
            let speaker := strip (Re.group 1 m) in
            let text := strip (Re.group 2 m) in
            [star; star] ++ speaker ++ [colon; star; star; space] ++ text
        | None => line
        end
      else line
  end.

Definition generate_markdown (content : str) : str :=
  join [nl] (map md_line (split nl content)).

Definition generate_txt (content : str) : str := content.

(* ================================================================== *)
(** ** Exceptions, decoded JSON, the HTTP exchange *)
(* ================================================================== *)

(** The exceptions that can arise in the script, each with what [str(e)]
    shows where the script prints it. *)
Inductive exn :=
| RequestException (msg : str)   (* requests.exceptions.RequestException
                                    and its subclasses *)
| KeyError (msg : str)
| IndexError (msg : str)
| TypeError
| AttributeError
| UnicodeDecodeError
| UnicodeEncodeError
| ValueError
| RecursionError
| StructError                    (* struct.error *)
| OtherError (name : str).       (* any other exception class *)

Inductive result (A : Type) :=
| Ok (a : A)
| Raise (e : exn).
Arguments Ok {A} a.
Arguments Raise {A} e.

(** What [json] decoding produces: [None], [bool], a number ([int] or
    [float]; all the script can do with one is fail on it), [str], [list],
    [dict] (its items). *)
#[warnings="-register-all"]
Inductive json :=
| JNull
| JBool (b : bool)
| JNum (n : Z)
| JStr (s : str)
| JArr (items : list json)
| JObj (items : list (str * json)).

Fixpoint assoc (A : Type) (k : str) (d : list (str * A)) : option A :=
  match d with
  | [] => None
  | (k', v) :: d' => if str_eqb k k' then Some v else assoc k d'
  end.

(** [repr] of a key made of letters: the key between single quotes, which
    is what [str(KeyError(key))] shows. *)
Definition repr_key (k : str) : str := u "'" ++ k ++ u "'".

(** [v[key]] for a [str] key. *)
Definition getitem_key (v : json) (key : str) : result json :=
  match v with
  | JObj d =>
      match assoc key d with
      | Some x => Ok x
      | None => Raise (KeyError (repr_key key))
      end
  | _ => Raise TypeError
  end.

(** [v[0]].  The keys of a decoded object are strings, so [0] is not among
    them. *)
Definition getitem_0 (v : json) : result json :=
  match v with
  | JArr (x :: _) => Ok x
  | JArr [] => Raise (IndexError (u "list index out of range"))
  | JStr (c :: _) => Ok (JStr [c])
  | JStr [] => Raise (IndexError (u "string index out of range"))
  | JObj _ => Raise (KeyError (u "0"))
  | _ => Raise TypeError
  end.

(** [v.strip()]: only [str] has the method. *)
Definition call_strip (v : json) : result str :=
  match v with
  | JStr s => Ok (strip s)
  | _ => Raise AttributeError
  end.

Record message := { role : str; content : str }.

Record payload := {
  model : str;
  messages : list message;
  temperature : Z * Z;      (* the decimal 0.3 as 3 / 10 *)
  max_tokens : Z
}.

Record request := {
  url : str;
  headers : list (str * str);
  body : payload;
  timeout : Z
}.

(** What [response.json()] does with the body: it returns the decoded
    value, raises [requests.exceptions.JSONDecodeError] (the body is not
    JSON), or lets another exception of the decoder through
    ([RecursionError] for a nesting too deep, [ValueError] for a number of
    too many digits). *)
Inductive reply_body :=
| Json (v : json)
| NotJson (msg : str)
| JsonRaised (e : exn).

Record response := {
  status_code : Z;
  status_error : str;     (* the text of the HTTPError for this status *)
  reply : reply_body
}.

(** The outcome of [requests.post]: it raises a [RequestException]
    (connection error, timeout, ...), it raises another exception that the
    library lets through ([UnicodeEncodeError] for a header value outside
    latin-1, [ValueError] for a newline in one), or it returns a
    response. *)
Inductive post_result :=
| PostRaised (msg : str)
| PostFailed (e : exn)
| PostReturned (r : response).

(** [response.raise_for_status()] *)
Definition raise_for_status (r : response) : result unit :=
  if ((400 <=? status_code r) && (status_code r <? 600))%Z
  then Raise (RequestException (status_error r))
  else Ok tt.

(** [response.json()]; [requests.exceptions.JSONDecodeError] is a
    [RequestException]. *)
Definition response_json (r : response) : result json :=
  match reply r with
  | Json v => Ok v
  | NotJson msg => Raise (RequestException msg)
  | JsonRaised e => Raise e
  end.

(* ================================================================== *)
(** ** The world: provider and page *)
(* ================================================================== *)

Record member := { member_name : str; member_data : bytes }.

(** A ZIP archive, by what it stores: its members in the order they were
    written.  The octets of the container are [zipfile]'s. *)
Definition archive := list member.

(** What the page shows, in order.  Static text (title, side bar, hints)
    and the elapsed times are left out. *)
Inductive ui_event :=
| WarnNoKey                                   (* st.warning: no API key *)
| ErrorTooMany (max uploaded : Z)             (* st.error: too many files *)
| SuccessUploaded (n : Z)
| FileList (names : list str)
| InfoRequests (n : Z)
| FileStart (idx : Z) (name : str)
| Progress (tenths : Z) (msg : str)
| FileDone (name : str) (dialogues : Z)
| FileFailed (name : str) (e : exn)
| Metrics (uploaded success requests : Z)
| InfoDialogues (total : Z)
| OfferZip (a : archive)
| OfferFiles (names : list str)
| AllDone
| UsageHints.

(** The provider answers the n-th request of the session; the world keeps
    the requests sent so far and the events shown so far. *)
Record world := {
  provider : nat -> request -> post_result;
  calls : list request;
  page : list ui_event
}.

Definition show (e : ui_event) (w : world) : world :=
  {| provider := provider w; calls := calls w; page := page w ++ [e] |}.

(** A computation that reads and changes the world and returns or raises. *)
Definition M (A : Type) : Type := world -> result A * world.

Definition ret (A : Type) (a : A) : M A := fun w => (Ok a, w).
Definition raise (A : Type) (e : exn) : M A := fun w => (Raise e, w).
Arguments raise {A} e.
Definition lift (A : Type) (r : result A) : M A := fun w => (r, w).
Definition bind (A B : Type) (m : M A) (f : A -> M B) : M B :=
  fun w =>
    match m w with
    | (Ok a, w') => f a w'
    | (Raise e, w') => (Raise e, w')
    end.
Definition effect (f : world -> world) : M unit := fun w => (Ok tt, f w).

(** [try: m  except ...: h e]; [h] raises again what no clause takes. *)
Definition try_except (A : Type) (m : M A) (h : exn -> M A) : M A :=
  fun w =>
    match m w with
    | (Ok a, w') => (Ok a, w')
    | (Raise e, w') => h e w'
    end.

Notation "x <- m ;; k" := (bind m (fun x => k))
  (at level 61, m at next level, right associativity).
Notation "m ;;; k" := (bind m (fun _ => k))
  (at level 61, right associativity).

(** [requests.post(url, headers=..., json=..., timeout=...)] *)
Definition requests_post (rq : request) : M response :=
  fun w =>
    let w' := {| provider := provider w;
                 calls := calls w ++ [rq];
                 page := page w |} in
    match provider w (length (calls w)) rq with
    | PostRaised msg => (Raise (RequestException msg), w')
    | PostFailed e => (Raise e, w')
    | PostReturned r => (Ok r, w')
    end.

(* ================================================================== *)
(** ** DialogueTranslator: the request *)
(* ================================================================== *)

Definition MODEL_NAME : str := u "google/gemini-2.5-flash".
Definition API_URL : str := u "https://openrouter.ai/api/v1/chat/completions".
Definition MAX_FILES : Z := 5.
Definition MAX_TOKENS : Z := 200000.

Record DialogueTranslator := {
  self_api_key : str;
  self_model : str;
  self_headers : list (str * str)
}.

(** [__init__] *)
Definition init (api_key model : str) : DialogueTranslator :=
  {| self_api_key := api_key;
     self_model := model;
     self_headers :=
       [(u "Authorization", u "Bearer " ++ api_key);
        (u "Content-Type", u "application/json")] |}.

(** The f-string of [translate_entire_file] before and behind
    [{cleaned_content}]. *)
Definition prompt_head : str :=
  u "请将以下英文对话文件翻译成地道的中文，要符合中文表达习惯，准确传达原意。

要求：
1. 保持原文件的格式和结构
2. 每行对话格式为" ++ [dquote] ++ u "说话者: 内容" ++ [dquote] ++ u "
3. 先显示英文原文，然后显示中文翻译，每组对话之间空一行
4. 自动清理已经存在的[tag]标签
5. 翻译要准确、地道、符合中文表达习惯
6. 输出格式示例：

Sally: Hello there!
Sally: 你好！

Pete: How are you?
Pete: 你好吗？

原文件内容：
".

Definition prompt_tail : str :=
  u "

翻译结果：".

Definition api_failed (msg : str) : str :=
  u "[API请求失败: " ++ msg ++ u "]".

Definition parse_failed (msg : str) : str :=
  u "[解析响应失败: " ++ msg ++ u "]".

Definition translate_entire_file (self : DialogueTranslator)
  (content filename : str) : M str :=
  let cleaned_content := clean_tags_from_content content in
  let prompt := prompt_head ++ cleaned_content ++ prompt_tail in
  let payload :=
    {| model := self_model self;
       messages := [{| role := u "user"; content := prompt |}];
       temperature := (3, 10)%Z;
       max_tokens := MAX_TOKENS |} in
  try_except
    (response <- requests_post {| url := API_URL;
                                  headers := self_headers self;
                                  body := payload;
                                  timeout := 120 |} ;;
     lift (raise_for_status response) ;;;
     result <- lift (response_json response) ;;
     choices <- lift (getitem_key result (u "choices")) ;;
     choice <- lift (getitem_0 choices) ;;
     msg <- lift (getitem_key choice (u "message")) ;;
     text <- lift (getitem_key msg (u "content")) ;;
     translated_content <- lift (call_strip text) ;;
     ret translated_content)
    (fun e =>
       match e with
       | RequestException msg => ret (api_failed msg)
       | KeyError msg => ret (parse_failed msg)
       | IndexError msg => ret (parse_failed msg)
       | _ => raise e
       end).

(** [progress_callback]: absent, or a procedure acting on the page; the
    progress is counted in tenths. *)
Definition callback := option (Z -> str -> world -> world).

(** [if progress_callback: progress_callback(p, msg)] *)
Definition notify (cb : callback) (tenths : Z) (msg : str) : M unit :=
  match cb with
  | Some f => effect (f tenths msg)
  | None => ret tt
  end.

Definition process_content (self : DialogueTranslator)
  (content filename : str) (progress_callback : callback) :
  M (str * str * Z) :=
  notify progress_callback 1 (u "开始翻译...") ;;;
  let dialogue_count := count_dialogues content in
  notify progress_callback 3 (u "正在调用API翻译...") ;;;
  translated_content <- translate_entire_file self content filename ;;
  notify progress_callback 8 (u "正在生成格式...") ;;;
  let md_content := generate_markdown translated_content in
  let txt_content := generate_txt translated_content in
  notify progress_callback 10 (u "完成！") ;;;
  ret (md_content, txt_content, dialogue_count).

(* ================================================================== *)
(** ** The bundle *)
(* ================================================================== *)

Definition slash : char := 47%N.
Definition period : char := 46%N.

(** [Path(filename).name] on a POSIX system: the last component, empty
    components and single dots dropped. *)
Definition path_name (filename : str) : str :=
  last (filter (fun c => negb (str_eqb c [] || str_eqb c [period]))
          (split slash filename)) [].

(** [s.rfind(c)], when [c] occurs. *)
Fixpoint rfind (c : char) (s : str) : option nat :=
  match s with
  | [] => None
  | x :: s' =>
      match rfind c s' with
      | Some i => Some (S i)
      | None => if (x =? c)%N then Some 0 else None
      end
  end.

(** [Path(filename).stem]: the name up to its last dot, when the dot is
    neither the first nor the last character of the name. *)
Definition path_stem (filename : str) : str :=
  let name := path_name filename in
  match rfind period name with
  | Some i => if (0 <? i) && (S i <? length name) then firstn i name else name
  | None => name
  end.

(** One value of the result mapping: the dict with the keys
    ['markdown'], ['txt'] and ['dialogue_count']. *)
Record rendered := {
  markdown : str;
  txt : str;
  dialogue_count : Z
}.

(** [Dict[str, Dict]]: the items in insertion order, keys distinct. *)
Definition results := list (str * rendered).

(** [d[k] = v]: a known key keeps its place. *)
Fixpoint dict_set (d : results) (k : str) (v : rendered) : results :=
  match d with
  | [] => [(k, v)]
  | (k', v') :: d' =>
      if str_eqb k k' then (k, v) :: d' else (k', v') :: dict_set d' k v
  end.

(** [s.encode('utf-8')] *)
Definition encode (s : str) : result bytes :=
  match utf8_encode s with
  | Some b => Ok b
  | None => Raise UnicodeEncodeError
  end.

(** [b.decode('utf-8')] *)
Definition decode (b : bytes) : result str :=
  match utf8_decode b with
  | Some s => Ok s
  | None => Raise UnicodeDecodeError
  end.

(** The name [zipfile] gives a member: the name up to its first NUL
    character ([ZipInfo.__init__]). *)
Definition zip_name (name : str) : str :=
  takewhile (fun c => negb (c =? 0)%N) name.

(** What [writestr] raises for a name, if anything: [IndexError] when the
    name is empty after the cut (it looks at the last character),
    [UnicodeEncodeError] when the name has no UTF-8 encoding, and
    [struct.error] when the encoded name is longer than the 16 bits of the
    header's length field can say. *)
Definition name_error (name : str) : option exn :=
  match zip_name name with
  | [] => Some (IndexError (u "string index out of range"))
  | _ :: _ =>
      match utf8_encode (zip_name name) with
      | None => Some UnicodeEncodeError
      | Some octets =>
          if (65535 <? N.of_nat (length octets))%N then Some StructError
          else None
      end
  end.

(** [zip_file.writestr(name, data)]: one more member, behind the others,
    under the name [zipfile] gives it.  (The clock is taken not to be set
    before 1980 and [zlib] to be there.) *)
Definition writestr (zip_file : archive) (name : str) (data : bytes) :
  result archive :=
  match name_error name with
  | Some e => Raise e
  | None =>
      Ok (zip_file
            ++ [{| member_name := zip_name name; member_data := data |}])
  end.

(** [zip_file.namelist()] *)
Definition namelist (a : archive) : list str := map member_name a.

(** [zip_file.read(name)]: of several members of one name, the one written
    last is the one a name refers to. *)
Fixpoint zip_read (a : archive) (name : str) : option bytes :=
  match a with
  | [] => None
  | m :: a' =>
      match zip_read a' name with
      | Some d => Some d
      | None => if str_eqb (member_name m) name then Some (member_data m)
                else None
      end
  end.

Definition md_member_name (filename : str) : str :=
  path_stem filename ++ u "_translated.md".

Definition txt_member_name (filename : str) : str :=
  path_stem filename ++ u "_translated.txt".

(** The loop of [create_download_zip] over the items that are left. *)
Fixpoint zip_loop (items : results) (zip_file : archive) : result archive :=
  match items with
  | [] => Ok zip_file
  | (filename, data) :: rest =>
      match encode (markdown data) with
      | Raise e => Raise e
      | Ok md_bytes =>
          match writestr zip_file (md_member_name filename) md_bytes with
          | Raise e => Raise e
          | Ok zip_file =>
              match encode (txt data) with
              | Raise e => Raise e
              | Ok txt_bytes =>
                  match writestr zip_file (txt_member_name filename)
                          txt_bytes with
                  | Raise e => Raise e
                  | Ok zip_file => zip_loop rest zip_file
                  end
              end
          end
      end
  end.

Definition create_download_zip (rs : results) : result archive :=
  zip_loop rs [].

(* ================================================================== *)
(** ** main *)
(* ================================================================== *)

Record uploaded_file := { file_name : str; file_value : bytes }.

(** The locals of [main] that the loop over the files updates. *)
Record batch := {
  batch_results : results;
  success_count : Z;
  total_dialogue_count : Z
}.

(** [update_progress] *)
Definition update_progress (tenths : Z) (msg : str) : world -> world :=
  show (Progress tenths msg).

(** The body of the loop over the uploaded files. *)
Definition process_file (translator : DialogueTranslator) (idx : Z)
  (f : uploaded_file) (b : batch) : M batch :=
  effect (show (FileStart idx (file_name f))) ;;;
  try_except
    (content <- lift (decode (file_value f)) ;;
     r <- process_content translator content (file_name f)
            (Some update_progress) ;;
     let '(md_content, txt_content, dialogue_count) := r in
     effect (show (FileDone (file_name f) dialogue_count)) ;;;
     ret {| batch_results :=
              dict_set (batch_results b) (file_name f)
                {| markdown := md_content;
                   txt := txt_content;
                   dialogue_count := dialogue_count |};
            success_count := success_count b + 1;
            total_dialogue_count := total_dialogue_count b + dialogue_count |})
    (fun e => effect (show (FileFailed (file_name f) e)) ;;; ret b).

Fixpoint file_loop (translator : DialogueTranslator) (idx : Z)
  (files : list uploaded_file) (b : batch) : M batch :=
  match files with
  | [] => ret b
  | f :: rest =>
      b' <- process_file translator idx f b ;;
      file_loop translator (idx + 1) rest b'
  end.

(** [main], given what the page's widgets hold: the key typed in, the files
    uploaded, and whether the start button is pressed.  The script's [main]
    returns nothing; the model returns the locals of the translation branch
    when that branch was entered, and [None] when it was not. *)
Definition main (api_key : str) (uploaded_files : list uploaded_file)
  (start : bool) : M (option batch) :=
  match api_key with
  | [] => effect (show WarnNoKey) ;;; ret None
  | _ :: _ =>
      match uploaded_files with
      | [] => effect (show UsageHints) ;;; ret None
      | _ :: _ =>
          let n := Z.of_nat (length uploaded_files) in
          if (n >? MAX_FILES)%Z then
            effect (show (ErrorTooMany MAX_FILES n)) ;;; ret None
          else
            effect (show (SuccessUploaded n)) ;;;
            effect (show (FileList (map file_name uploaded_files))) ;;;
            if start then
              let translator := init api_key MODEL_NAME in
              effect (show (InfoRequests n)) ;;;
              b <- file_loop translator 1 uploaded_files
                     {| batch_results := [];
                        success_count := 0;
                        total_dialogue_count := 0 |} ;;
              effect (show (Metrics n (success_count b) (success_count b))) ;;;
              (if (success_count b >? 0)%Z
               then effect (show (InfoDialogues (total_dialogue_count b)))
               else ret tt) ;;;
              match batch_results b with
              | [] => ret tt
              | _ :: _ =>
                  zip_bytes <- lift (create_download_zip (batch_results b)) ;;
                  effect (show (OfferZip zip_bytes)) ;;;
                  effect (show (OfferFiles (map fst (batch_results b))))
              end ;;;
              effect (show AllDone) ;;;
              ret (Some b)
            else ret None
      end
  end.

(* ================================================================== *)
(** ** Vocabulary of the statements *)
(* ================================================================== *)

(** A line is blank when nothing is left of it after [strip]. *)
Definition is_blank (line : str) : bool :=
  match strip line with
  | [] => true
  | _ :: _ => false
  end.

(** The text between an opening bracket and the nearest closing one, when
    no newline comes first: what [.*?] matches behind a bracket. *)
Fixpoint tag_body (t : str) : option str :=
  match t with
  | [] => None
  | c :: t' =>
      if (c =? rbracket)%N then Some []
      else if (c =? nl)%N then None
      else option_map (cons c) (tag_body t')
  end.

(** The text before the first colon and the text behind it. *)
Fixpoint cut_colon (s : str) : option (str * str) :=
  match s with
  | [] => None
  | c :: s' =>
      if (c =? colon)%N then Some ([], s')
      else option_map (fun pr => (c :: fst pr, snd pr)) (cut_colon s')
  end.

(** The markdown of one line in the words of the specification: a line
    that reads [speaker: content] once trimmed, with a speaker that is not
    empty, becomes the speaker in strong emphasis, a colon and the content;
    any other line becomes the trimmed line. *)
Definition md_line_spec (line : str) : str :=
  let s := strip line in
  match cut_colon s with
  | Some (c :: speaker, text) =>
      [star; star] ++ strip (c :: speaker)
        ++ [colon; star; star; space] ++ strip text
  | _ => s
  end.

(** The part of the markdown pattern behind the speaker. *)
Definition speaker_tail : Re.regex :=
  [Re.Rep false Re.One (Re.lit colon);
   Re.Rep false Re.Star Re.ws;
   Re.Rep true Re.Star Re.dot;
   Re.Eol].

(** The part of the counting pattern behind the speaker. *)
Definition dialogue_tail : Re.regex :=
  [Re.Rep false Re.One (Re.lit colon);
   Re.Rep false Re.Star Re.ws;
   Re.Rep false Re.Plus Re.dot;
   Re.Eol].

(** A pattern without [^]. *)
Definition no_bol (r : Re.regex) : bool :=
  forallb (fun n => match n with Re.Bol => false | _ => true end) r.

(** The request [translate_entire_file] sends for a text. *)
Definition translation_request (self : DialogueTranslator) (content : str) :
  request :=
  {| url := API_URL;
     headers := self_headers self;
     body :=
       {| model := self_model self;
          messages :=
            [{| role := u "user";
                content := prompt_head ++ clean_tags_from_content content
                             ++ prompt_tail |}];
          temperature := (3, 10)%Z;
          max_tokens := MAX_TOKENS |};
     timeout := 120 |}.

(** [result['choices'][0]['message']['content'].strip()] *)
Definition extract_content (v : json) : result str :=
  match getitem_key v (u "choices") with
  | Raise e => Raise e
  | Ok choices =>
      match getitem_0 choices with
      | Raise e => Raise e
      | Ok choice =>
          match getitem_key choice (u "message") with
          | Raise e => Raise e
          | Ok msg =>
              match getitem_key msg (u "content") with
              | Raise e => Raise e
              | Ok text => call_strip text
              end
          end
      end
  end.

(** What the [try] block of [translate_entire_file] comes to for an
    outcome of the call. *)
Definition attempt (o : post_result) : result str :=
  match o with
  | PostRaised msg => Raise (RequestException msg)
  | PostFailed e => Raise e
  | PostReturned r =>
      match raise_for_status r with
      | Raise e => Raise e
      | Ok _ =>
          match response_json r with
          | Raise e => Raise e
          | Ok v => extract_content v
          end
      end
  end.

(** The [except] clauses of [translate_entire_file]. *)
Definition handled (r : result str) : result str :=
  match r with
  | Raise (RequestException msg) => Ok (api_failed msg)
  | Raise (KeyError msg) => Ok (parse_failed msg)
  | Raise (IndexError msg) => Ok (parse_failed msg)
  | _ => r
  end.

(** The exceptions the [except] clauses take. *)
Definition is_handled (e : exn) : bool :=
  match e with
  | RequestException _ | KeyError _ | IndexError _ => true
  | _ => false
  end.

(** The world once one more request has been sent. *)
Definition sent (rq : request) (w : world) : world :=
  {| provider := provider w; calls := calls w ++ [rq]; page := page w |}.

(** A reply of the expected shape, with the text [s]. *)
Definition completion (s : json) : json :=
  JObj [(u "choices", JArr [JObj [(u "message", JObj [(u "content", s)])]])].

Definition ok_response (v : json) : response :=
  {| status_code := 200; status_error := []; reply := Json v |}.

(** A provider that answers every request with a completion whose content
    is [null]. *)
Definition null_content_world : world :=
  {| provider := fun _ _ => PostReturned (ok_response (completion JNull));
     calls := [];
     page := [] |}.

(** The world at the moment [process_content] calls the translator. *)
Definition at_translation (cb : callback) (w : world) : world :=
  snd (notify cb 3 (u "正在调用API翻译...")
         (snd (notify cb 1 (u "开始翻译...") w))).

(** The events of the loop over the files. *)
Definition is_file_event (e : ui_event) : bool :=
  match e with
  | FileStart _ _ | Progress _ _ | FileDone _ _ | FileFailed _ _ => true
  | _ => false
  end.

(** The UTF-8 encoding of a text that has one. *)
Definition utf8 (s : str) : bytes :=
  match utf8_encode s with
  | Some b => b
  | None => []
  end.

(** The two members written for one entry of the result mapping. *)
Definition entry_members (e : str * rendered) : list member :=
  [{| member_name := md_member_name (fst e);
      member_data := utf8 (markdown (snd e)) |};
   {| member_name := txt_member_name (fst e);
      member_data := utf8 (txt (snd e)) |}].

Definition entry_names (e : str * rendered) : list str :=
  [md_member_name (fst e); txt_member_name (fst e)].

(** The archive property in the words of the specification: an archive is
    produced, its member names are the two names of each entry in insertion
    order, and extracting the member of an entry's name yields the UTF-8
    encoding of that entry's rendering. *)
Definition bundle_as_claimed (rs : results) : Prop :=
  exists a,
    create_download_zip rs = Ok a
    /\ namelist a = flat_map entry_names rs
    /\ forall f r, In (f, r) rs ->
         (exists b, utf8_encode (markdown r) = Some b
                    /\ zip_read a (md_member_name f) = Some b)
         /\ (exists b, utf8_encode (txt r) = Some b
                       /\ zip_read a (txt_member_name f) = Some b).

Definition plain (s : str) : rendered :=
  {| markdown := s; txt := s; dialogue_count := 0 |}.

(** Two uploads whose names differ only in the extension. *)
Definition colliding_results : results :=
  [(u "a.txt", plain (u "one")); (u "a.md", plain (u "two"))].

(** A member name that [zipfile] stores as it is: no NUL character in it,
    and nothing for [writestr] to raise. *)
Definition storable (name : str) : bool :=
  str_eqb (zip_name name) name
  && match name_error name with
     | None => true
     | Some _ => false
     end.

(** The two members of an entry as [zipfile] stores them. *)
Definition stored_members (e : str * rendered) : list member :=
  [{| member_name := zip_name (md_member_name (fst e));
      member_data := utf8 (markdown (snd e)) |};
   {| member_name := zip_name (txt_member_name (fst e));
      member_data := utf8 (txt (snd e)) |}].

(** An upload name with a NUL character, one with a lone surrogate, and
    one whose text member name takes 65536 octets. *)
Definition nul_name_results : results :=
  [(u "a" ++ [0%N] ++ u "b.txt", plain (u "x"))].

Definition surrogate_name_results : results :=
  [([55296%N] ++ u ".txt", plain (u "x"))].

Definition long_name_results : results :=
  [(repeat 97%N (N.to_nat 65521) ++ u ".txt", plain (u "x"))].

(** A bracketed annotation in the words of the specification: an opening
    bracket, any content, and the nearest closing bracket behind it. *)
Definition has_annotation (s : str) : Prop :=
  exists a b c, s = a ++ lbracket :: b ++ rbracket :: c /\ ~ In rbracket b.

(** A text with a bracket pair that spans a newline. *)
Definition two_line_tag : str := u "x[a" ++ [nl] ++ u "b]y".

(** A rendering with a lone surrogate, as a JSON escape can produce. *)
Definition surrogate_results : results :=
  [(u "a.txt", plain [55296%N])].

(** Six uploads. *)
Definition six_files : list uploaded_file :=
  map (fun n => {| file_name := n; file_value := [] |})
    [u "1.txt"; u "2.txt"; u "3.txt"; u "4.txt"; u "5.txt"; u "6.txt"].

(** One upload, and a provider that answers with a translation. *)
Definition one_file : list uploaded_file :=
  [{| file_name := u "talk.txt";
      file_value := utf8 (u "Sally: [warm] Hello!") |}].

Definition helpful_world : world :=
  {| provider := fun _ _ =>
                   PostReturned
                     (ok_response
                        (completion
                           (JStr (u "Sally: Hello!" ++ [nl]
                                    ++ u "Sally: 你好！" ++ [nl]))));
     calls := [];
     page := [] |}.

(** The sample of the tag stripper. *)
Definition tagged_sample : str :=
  u "Sally: [warm] Hello!" ++ [nl] ++ u "Pete: [joyful] Hi!".

(** A dialogue line in the words of the counter's comment: once trimmed,
    a speaker that is not empty, a colon, and something behind it. *)
Definition dialogue_shape (line : str) : bool :=
  match cut_colon (strip line) with
  | Some (_ :: _, _ :: _) => true
  | _ => false
  end.

(** The part of the counting pattern behind the colon. *)
Definition utterance_re : Re.regex :=
  [Re.Rep false Re.Star Re.ws; Re.Rep false Re.Plus Re.dot; Re.Eol].

(** The requests a batch costs: one for each upload that is valid UTF-8,
    in upload order. *)
Definition requests_of (t : DialogueTranslator) (files : list uploaded_file) :
  list request :=
  flat_map (fun f =>
              match utf8_decode (file_value f) with
              | Some text => [translation_request t text]
              | None => []
              end) files.

(** The page of [process_content] up to the call of the translator. *)
Definition announced (w : world) : world :=
  show (Progress 3 (u "正在调用API翻译..."))
    (show (Progress 1 (u "开始翻译...")) w).

(** The batch once one more file has been processed. *)
Definition stored (b : batch) (name : str) (r : rendered) : batch :=
  {| batch_results := dict_set (batch_results b) name r;
     success_count := success_count b + 1;
     total_dialogue_count := total_dialogue_count b + dialogue_count r |}.

(** A provider whose translation holds a lone surrogate. *)
Definition surrogate_world : world :=
  {| provider := fun _ _ =>
                   PostReturned (ok_response (completion (JStr [55296%N])));
     calls := [];
     page := [] |}.

(** An upload that is not UTF-8. *)
Definition latin1_file : uploaded_file :=
  {| file_name := u "latin1.txt"; file_value := [octet 233] |}.

(** What the loop keeps, whatever the provider answers. *)
Record kept (t : DialogueTranslator) (files : list uploaded_file)
  (b b' : batch) : Prop := {
  kept_count :
    (success_count b <= success_count b'
     <= success_count b + Z.of_nat (length (requests_of t files)))%Z;
  kept_total : (total_dialogue_count b <= total_dialogue_count b')%Z;
  kept_size :
    (Z.of_nat (length (batch_results b')) - success_count b'
     <= Z.of_nat (length (batch_results b)) - success_count b)%Z;
  kept_nodup :
    NoDup (map fst (batch_results b)) -> NoDup (map fst (batch_results b'));
  kept_keys :
    incl (map fst (batch_results b'))
      (map fst (batch_results b) ++ map file_name files)
}.

(** The page when the loop over the files starts. *)
Definition loop_start (files : list uploaded_file) (w : world) : world :=
  show (InfoRequests (Z.of_nat (length files)))
    (show (FileList (map file_name files))
       (show (SuccessUploaded (Z.of_nat (length files))) w)).

(** The batch before the first file. *)
Definition empty_batch : batch :=
  {| batch_results := []; success_count := 0; total_dialogue_count := 0 |}.

(** [main] reaches the loop over the files: a key, between one and
    [MAX_FILES] uploads, the start button pressed. *)
Definition active (api_key : str) (files : list uploaded_file)
  (start : bool) : bool :=
  match api_key, files with
  | _ :: _, _ :: _ => (Z.of_nat (length files) <=? MAX_FILES)%Z && start
  | _, _ => false
  end.

(* ================================================================== *)
(** * Properties *)
(* ================================================================== *)

Unset Implicit Arguments.

(** ** Text *)

Section TextFacts.

Lemma lstrip_incl (s : str) : incl (lstrip s) s.
Proof.
  induction s as [|c s IH]; simpl.
  - apply incl_refl.
  - destruct (isspace c).
    + apply incl_tl, IH.
    + apply incl_refl.
Qed.

Lemma strip_incl (s : str) : incl (strip s) s.
Proof.
  unfold strip, rstrip. intros c Hc.
  apply lstrip_incl.
  apply in_rev in Hc. apply lstrip_incl in Hc.
  now apply in_rev.
Qed.

Lemma lstrip_head (s : str) (c : char) (t : str) :
  lstrip s = c :: t -> isspace c = false.
Proof.
  induction s as [|x s IH]; simpl; [discriminate|].
  destruct (isspace x) eqn:E; [exact IH|].
  intros H; injection H as -> _. exact E.
Qed.

Lemma lstrip_fixed (c : char) (s : str) :
  isspace c = false -> lstrip (c :: s) = c :: s.
Proof. intros H; simpl; now rewrite H. Qed.

Lemma lstrip_idem (s : str) : lstrip (lstrip s) = lstrip s.
Proof.
  destruct (lstrip s) as [|c t] eqn:E; [reflexivity|].
  apply lstrip_fixed. eapply lstrip_head; eauto.
Qed.

(** Trimming on the left leaves a string that ends in a kept character
    alone on the right. *)
Lemma lstrip_app_keep (s : str) (c : char) :
  isspace c = false -> lstrip (s ++ [c]) = lstrip s ++ [c].
Proof.
  intros H. induction s as [|x s IH]; simpl.
  - now rewrite H.
  - destruct (isspace x); [exact IH|reflexivity].
Qed.

Lemma lstrip_app_nonnil (s t : str) :
  lstrip s <> [] -> lstrip (s ++ t) = lstrip s ++ t.
Proof.
  induction s as [|x s IH]; simpl; [congruence|].
  destruct (isspace x); [exact IH|reflexivity].
Qed.

Lemma rstrip_cons_keep (c : char) (s : str) :
  isspace c = false -> rstrip (c :: s) = c :: rstrip s.
Proof.
  intros H. unfold rstrip. simpl.
  rewrite lstrip_app_keep by exact H.
  now rewrite rev_app_distr.
Qed.

Lemma strip_cons_keep (c : char) (s : str) :
  isspace c = false -> strip (c :: s) = c :: rstrip s.
Proof.
  intros H. unfold strip. rewrite lstrip_fixed by exact H.
  now apply rstrip_cons_keep.
Qed.

Lemma rstrip_idem (s : str) : rstrip (rstrip s) = rstrip s.
Proof.
  unfold rstrip. now rewrite rev_involutive, lstrip_idem.
Qed.

(** A [strip]ped text is not changed by trimming it again, on either
    side. *)
Lemma strip_idem (s : str) : strip (strip s) = strip s.
Proof.
  unfold strip at 2 3.
  destruct (lstrip s) as [|c t] eqn:E.
  - reflexivity.
  - pose proof (lstrip_head _ _ _ E) as Hc.
    rewrite (rstrip_cons_keep _ _ Hc), (strip_cons_keep _ _ Hc).
    now rewrite rstrip_idem.
Qed.

Lemma rstrip_strip (s : str) : rstrip (strip s) = strip s.
Proof. unfold strip. apply rstrip_idem. Qed.

Lemma lstrip_strip (s : str) : lstrip (strip s) = strip s.
Proof.
  unfold strip.
  destruct (lstrip s) as [|c t] eqn:E; [reflexivity|].
  pose proof (lstrip_head _ _ _ E) as Hc.
  rewrite (rstrip_cons_keep _ _ Hc). now apply lstrip_fixed.
Qed.

Lemma strip_lstrip (s : str) : strip (lstrip s) = strip s.
Proof. unfold strip. now rewrite lstrip_idem. Qed.

Lemma contains_In (c : char) (s : str) : contains c s = true <-> In c s.
Proof.
  unfold contains. rewrite existsb_exists. split.
  - intros (x & Hx & E). apply N.eqb_eq in E. now subst.
  - intros H. exists c. split; [exact H|apply N.eqb_refl].
Qed.

Lemma contains_false (c : char) (s : str) :
  contains c s = false <-> ~ In c s.
Proof.
  rewrite <- contains_In. destruct (contains c s); split; congruence.
Qed.

Lemma split_nonempty (sep : char) (s : str) : split sep s <> [].
Proof.
  induction s as [|c s IH]; simpl; [discriminate|].
  destruct (c =? sep)%N; [discriminate|].
  destruct (split sep s); [congruence|discriminate].
Qed.

(** No line of [split] holds the separator. *)
Lemma split_no_sep (sep : char) (s : str) :
  Forall (fun l => ~ In sep l) (split sep s).
Proof.
  induction s as [|c s IH]; simpl.
  - constructor; [intros []|constructor].
  - destruct (c =? sep)%N eqn:E.
    + constructor; [intros []|exact IH].
    + destruct (split sep s) as [|l ls]; [|].
      * constructor; [|constructor].
        intros [H|[]]. subst. now rewrite N.eqb_refl in E.
      * inversion IH as [|? ? Hl Hls]; subst.
        constructor; [|exact Hls].
        intros [H|H]; [subst; now rewrite N.eqb_refl in E|tauto].
Qed.

Lemma split_line (sep : char) (l : str) :
  ~ In sep l -> split sep l = [l].
Proof.
  induction l as [|c l IH]; simpl; intros H; [reflexivity|].
  destruct (c =? sep)%N eqn:E.
  - apply N.eqb_eq in E. tauto.
  - rewrite IH by tauto. reflexivity.
Qed.

Lemma split_app_sep (sep : char) (l rest : str) :
  ~ In sep l -> split sep (l ++ sep :: rest) = l :: split sep rest.
Proof.
  induction l as [|c l IH]; simpl; intros H.
  - now rewrite N.eqb_refl.
  - destruct (c =? sep)%N eqn:E.
    + apply N.eqb_eq in E. tauto.
    + rewrite IH by tauto. reflexivity.
Qed.

(** [split] undoes [join] on lines that do not hold the separator. *)
Lemma split_join (sep : char) (ls : list str) :
  ls <> [] -> Forall (fun l => ~ In sep l) ls ->
  split sep (join [sep] ls) = ls.
Proof.
  induction ls as [|l ls IH]; [congruence|].
  intros _ H. inversion H as [|? ? Hl Hls]; subst.
  destruct ls as [|l' ls'].
  - simpl. now apply split_line.
  - change (join [sep] (l :: l' :: ls'))
      with (l ++ sep :: join [sep] (l' :: ls')).
    rewrite split_app_sep by exact Hl.
    f_equal. apply IH; [discriminate|exact Hls].
Qed.

End TextFacts.

(** ** The tag pattern *)

Section TagPattern.

Lemma tag_lazy (t : str) (bos : bool) :
  Re.lazy Re.dot (Re.exec [Re.Rep false Re.One (Re.lit rbracket)]) bos t
  = option_map (fun b => (b, [[rbracket]])) (tag_body t).
Proof.
  revert bos. induction t as [|c t IH]; intros bos; [reflexivity|].
  cbn [Re.lazy tag_body].
  unfold Re.here at 1. cbn [Re.exec Re.run]. unfold Re.lit at 1.
  rewrite (N.eqb_sym rbracket c).
  destruct (c =? rbracket)%N eqn:Erb.
  - apply N.eqb_eq in Erb. subst c. reflexivity.
  - cbn [option_map Re.more]. unfold Re.dot at 1.
    destruct (c =? nl)%N; cbn [negb]; [reflexivity|].
    rewrite IH. destruct (tag_body t); reflexivity.
Qed.

(** Where the pattern matches: at an opening bracket that closes on its
    line; the match is the bracket, the body and the closing bracket. *)
Lemma tag_exec (s : str) (bos : bool) :
  Re.exec tag_re bos s =
  match s with
  | c :: t =>
      if (c =? lbracket)%N
      then option_map (fun b => [[c]; b; [rbracket]]) (tag_body t)
      else None
  | [] => None
  end.
Proof.
  destruct s as [|c t]; [reflexivity|].
  unfold tag_re. cbn [Re.exec Re.run]. unfold Re.lit at 1.
  rewrite (N.eqb_sym lbracket c).
  destruct (c =? lbracket)%N; [|reflexivity].
  unfold Re.here. cbn [Re.exec Re.run].
  change (Re.run Re.LazyStar Re.dot) with (Re.lazy Re.dot).
  rewrite tag_lazy.
  destruct (tag_body t); reflexivity.
Qed.

Lemma tag_body_some (t b : str) :
  tag_body t = Some b ->
  exists rest, t = b ++ rbracket :: rest /\ ~ In nl b /\ ~ In rbracket b.
Proof.
  revert b. induction t as [|c t IH]; intros b; simpl; [discriminate|].
  destruct (c =? rbracket)%N eqn:Erb.
  - apply N.eqb_eq in Erb. subst c.
    intros H; injection H as <-. exists t. simpl. tauto.
  - destruct (c =? nl)%N eqn:Enl; [discriminate|].
    destruct (tag_body t) as [b'|]; [|discriminate].
    intros H; injection H as <-.
    destruct (IH b' eq_refl) as (rest & -> & Hnl & Hrb).
    exists rest. split; [reflexivity|].
    apply N.eqb_neq in Erb, Enl.
    split; intros [E|E]; congruence || tauto.
Qed.

Lemma tag_body_closes (b rest : str) :
  ~ In nl b -> tag_body (b ++ rbracket :: rest) <> None.
Proof.
  induction b as [|c b IH]; simpl; intros H.
  - discriminate.
  - destruct (c =? rbracket)%N; [discriminate|].
    destruct (c =? nl)%N eqn:Enl.
    + apply N.eqb_eq in Enl. tauto.
    + destruct (tag_body (b ++ rbracket :: rest)) eqn:E; [discriminate|].
      exfalso. apply IH; tauto.
Qed.

(** [re.search] finds the pattern exactly in the texts that hold an opening
    bracket and, behind it with no newline in between, a closing one. *)
Lemma search_tag_spec (s : str) (bos : bool) :
  Re.search_from tag_re bos s = true <->
  exists a b c, s = a ++ lbracket :: b ++ rbracket :: c /\ ~ In nl b.
Proof.
  split.
  - revert bos. induction s as [|x s IH]; intros bos; cbn [Re.search_from].
    + rewrite tag_exec. discriminate.
    + rewrite tag_exec.
      destruct (x =? lbracket)%N eqn:Elb.
      * destruct (tag_body s) as [b|] eqn:Eb; cbn [option_map].
        -- intros _. apply N.eqb_eq in Elb. subst x.
           destruct (tag_body_some _ _ Eb) as (rest & -> & Hnl & _).
           now exists [], b, rest.
        -- intros H. destruct (IH _ H) as (a & b & c & -> & Hnl).
           now exists (x :: a), b, c.
      * intros H. destruct (IH _ H) as (a & b & c & -> & Hnl).
        now exists (x :: a), b, c.
  - intros (a & b & c & -> & Hnl). revert bos.
    induction a as [|x a IH]; intros bos.
    + cbn [app Re.search_from]. rewrite tag_exec, N.eqb_refl.
      destruct (tag_body (b ++ rbracket :: c)) eqn:E; [reflexivity|].
      exfalso. now apply (tag_body_closes b c).
    + cbn [app Re.search_from].
      destruct (Re.exec tag_re bos _); [reflexivity|apply IH].
Qed.

Lemma sub_tag_nil (bos : bool) (n : nat) : Re.sub_from tag_re [] bos n [] = [].
Proof. destruct n; reflexivity. Qed.

Lemma sub_tag_keep (bos : bool) (c : char) (s : str) :
  Re.exec tag_re bos (c :: s) = None ->
  Re.sub_from tag_re [] bos 0 (c :: s) = c :: Re.sub_from tag_re [] false 0 s.
Proof. intros H. cbn [Re.sub_from]. now rewrite H. Qed.

Lemma sub_tag_drop (bos : bool) (c : char) (s b : str) :
  c = lbracket -> tag_body s = Some b ->
  Re.sub_from tag_re [] bos 0 (c :: s)
  = Re.sub_from tag_re [] false (S (length b)) s.
Proof.
  intros -> Hb. cbn [Re.sub_from]. rewrite tag_exec, N.eqb_refl, Hb.
  cbn [option_map concat]. rewrite !length_app. cbn [length app].
  now rewrite Nat.add_0_r, Nat.add_1_r.
Qed.

(** A bracket that does not close before the substitution does not close
    behind it. *)
Lemma sub_tag_open (s : str) (bos : bool) :
  tag_body s = None -> tag_body (Re.sub_from tag_re [] bos 0 s) = None.
Proof.
  revert bos. induction s as [|c s IH]; intros bos H.
  - reflexivity.
  - simpl in H.
    destruct (c =? rbracket)%N eqn:Erb; [discriminate|].
    assert (Hno : Re.exec tag_re bos (c :: s) = None).
    { rewrite tag_exec. destruct (c =? lbracket)%N eqn:Elb; [|reflexivity].
      apply N.eqb_eq in Elb. subst c. cbn in H.
      destruct (tag_body s); [discriminate|reflexivity]. }
    rewrite sub_tag_keep by exact Hno. simpl. rewrite Erb.
    destruct (c =? nl)%N; [reflexivity|].
    rewrite IH; [reflexivity|].
    destruct (tag_body s); [discriminate|reflexivity].
Qed.

Lemma sub_tag_clean (s : str) (bos bos' : bool) (n : nat) :
  Re.search_from tag_re bos' (Re.sub_from tag_re [] bos n s) = false.
Proof.
  revert bos bos' n. induction s as [|c s IH]; intros bos bos' n.
  - rewrite sub_tag_nil. reflexivity.
  - destruct n as [|n]; [|apply IH].
    destruct (Re.exec tag_re bos (c :: s)) as [segs|] eqn:E.
    + rewrite tag_exec in E.
      destruct (c =? lbracket)%N eqn:Elb; [|discriminate].
      destruct (tag_body s) as [b|] eqn:Eb; [|discriminate].
      apply N.eqb_eq in Elb.
      rewrite (sub_tag_drop bos c s b Elb Eb). apply IH.
    + rewrite sub_tag_keep by exact E.
      cbn [Re.search_from]. rewrite tag_exec.
      rewrite tag_exec in E.
      destruct (c =? lbracket)%N; [|apply IH].
      destruct (tag_body s) eqn:Eb; [discriminate|].
      rewrite (sub_tag_open s false Eb). cbn [option_map]. apply IH.
Qed.

Lemma sub_tag_id (s : str) (bos : bool) :
  Re.search_from tag_re bos s = false -> Re.sub_from tag_re [] bos 0 s = s.
Proof.
  revert bos. induction s as [|c s IH]; intros bos H.
  - apply sub_tag_nil.
  - cbn [Re.search_from] in H.
    destruct (Re.exec tag_re bos (c :: s)) eqn:E; [discriminate|].
    rewrite sub_tag_keep by exact E. f_equal. now apply IH.
Qed.

End TagPattern.

(** ** Tag stripping *)

(** C2, as the code has it: stripping the sample removes the two bracketed
    tags and nothing else, so the space before and the space behind each tag
    both stay. *)
Theorem strip_sample_keeps_both_spaces :
  clean_tags_from_content tagged_sample
  = u "Sally:  Hello!" ++ [nl] ++ u "Pete:  Hi!".
Proof. vm_compute. reflexivity. Qed.

(** C2, as stated, fails: the result is not the text with single spaces. *)
Lemma strip_sample_not_single_spaced :
  clean_tags_from_content tagged_sample
  <> u "Sally: Hello!" ++ [nl] ++ u "Pete: Hi!".
Proof. vm_compute. discriminate. Qed.

(** C5, as the code has it: tag stripping is idempotent, is the identity
    on a text in which the tag pattern is found nowhere, and leaves a text
    in which the tag pattern is found nowhere: no opening bracket of the
    result is followed on its line by a closing one. *)
Theorem strip_tags_idempotent (x : str) :
  clean_tags_from_content (clean_tags_from_content x)
  = clean_tags_from_content x
  /\ (Re.search tag_re x = false -> clean_tags_from_content x = x)
  /\ Re.search tag_re (clean_tags_from_content x) = false
  /\ ~ (exists a b c,
          clean_tags_from_content x = a ++ lbracket :: b ++ rbracket :: c
          /\ ~ In nl b).
Proof.
  assert (Hclean : Re.search tag_re (clean_tags_from_content x) = false)
    by apply sub_tag_clean.
  repeat split.
  - apply sub_tag_id. exact Hclean.
  - apply sub_tag_id.
  - exact Hclean.
  - intros H. apply (search_tag_spec _ true) in H.
    unfold Re.search in Hclean. congruence.
Qed.

Lemma strip_tags_idempotent_witness :
  Re.search tag_re (u "Sally: Hello!") = false
  /\ clean_tags_from_content (u "Sally: Hello!") = u "Sally: Hello!".
Proof.
  split; [vm_compute; reflexivity|].
  apply (strip_tags_idempotent (u "Sally: Hello!")).
  vm_compute. reflexivity.
Defined.

(** C5, as stated, fails: the specification takes an annotation to run
    from a bracket to the nearest closing one whatever lies between, and
    the cleaned text is to hold none; an annotation that spans a newline is
    kept, so the cleaned text still holds one. *)
Lemma strip_keeps_annotation_across_lines :
  clean_tags_from_content two_line_tag = two_line_tag
  /\ has_annotation (clean_tags_from_content two_line_tag).
Proof.
  split; [vm_compute; reflexivity|].
  exists (u "x"), (u "a" ++ [nl] ++ u "b"), (u "y").
  split; [vm_compute; reflexivity|].
  vm_compute. intuition discriminate.
Qed.

(** ** The matcher *)

Section Matcher.

Variable p : char -> bool.
Variable k : Re.cont.

Lemma span_all (s : str) :
  (forall c, In c s -> p c = true) ->
  takewhile p s = s /\ dropwhile p s = [].
Proof.
  induction s as [|c s IH]; simpl; intros H; [tauto|].
  rewrite (H c) by tauto.
  destruct IH as [-> ->]; [intros; apply H; tauto|tauto].
Qed.

Lemma span_stop (a : str) (c : char) (rest : str) :
  (forall x, In x a -> p x = true) -> p c = false ->
  takewhile p (a ++ c :: rest) = a /\ dropwhile p (a ++ c :: rest) = c :: rest.
Proof.
  intros Ha Hc. induction a as [|x a IH]; simpl.
  - now rewrite Hc.
  - rewrite (Ha x) by (simpl; tauto).
    destruct IH as [-> ->]; [intros; apply Ha; simpl; tauto|tauto].
Qed.

(** A greedy repetition whose longest run is accepted by what follows
    stops there. *)
Lemma greedy_max (s : str) (bos : bool) (r : list str) :
  (forall b, k b (dropwhile p s) = Some r) ->
  Re.greedy p k bos s = Some (takewhile p s, r).
Proof.
  revert bos. induction s as [|c s IH]; intros bos H; simpl in *.
  - unfold Re.here. now rewrite H.
  - destruct (p c).
    + now rewrite (IH false H).
    + unfold Re.here. now rewrite H.
Qed.

(** When what follows can start with no character of the class and does
    not look at the start of the string, backing off never helps: the
    repetition takes its longest run or fails. *)
Lemma greedy_exclusive (s : str) (bos : bool) :
  (forall b c t, p c = true -> k b (c :: t) = None) ->
  (forall b b' t, k b t = k b' t) ->
  Re.greedy p k bos s
  = option_map (pair (takewhile p s)) (k bos (dropwhile p s)).
Proof.
  intros Hex Hirr. revert bos.
  induction s as [|c s IH]; intros bos; simpl.
  - reflexivity.
  - destruct (p c) eqn:Ec; [|reflexivity].
    rewrite (IH false), (Hirr false bos).
    destruct (k bos (dropwhile p s)); simpl; [reflexivity|].
    unfold Re.here. now rewrite (Hex bos c s Ec).
Qed.

Lemma run_irrelevant (q : Re.quant) (s : str) (b b' : bool) :
  (forall b b' t, k b t = k b' t) -> Re.run q p k b s = Re.run q p k b' s.
Proof.
  intros Hirr. destruct q, s as [|c s]; simpl; unfold Re.here;
    rewrite ?(Hirr b b'); reflexivity.
Qed.

End Matcher.

Lemma exec_rep (g : bool) (q : Re.quant) (p : char -> bool) (r : Re.regex)
  (bos : bool) (s : str) :
  Re.exec (Re.Rep g q p :: r) bos s
  = option_map (fun m => fst m :: snd m) (Re.run q p (Re.exec r) bos s).
Proof. reflexivity. Qed.

Lemma exec_bol (r : Re.regex) (s : str) :
  Re.exec (Re.Bol :: r) true s = option_map (cons []) (Re.exec r true s).
Proof. reflexivity. Qed.

Lemma plus_run (p : char -> bool) (k : Re.cont) (bos : bool) (s : str) :
  Re.run Re.Plus p k bos s =
  match s with
  | c :: t => if p c then Re.more c (Re.greedy p k false t) else None
  | [] => None
  end.
Proof. reflexivity. Qed.

(** A pattern without [^] matches the same wherever the text starts. *)
Lemma exec_irrelevant (r : Re.regex) :
  no_bol r = true -> forall b b' s, Re.exec r b s = Re.exec r b' s.
Proof.
  induction r as [|n r IH]; intros H b b' s; [reflexivity|].
  simpl in H. apply andb_prop in H. destruct H as [Hn Hr].
  destruct n as [| |g q p]; [discriminate| |].
  - simpl. now rewrite (IH Hr b b').
  - rewrite !exec_rep. f_equal. apply run_irrelevant. now apply IH.
Qed.

Lemma one_run (p : char -> bool) (k : Re.cont) (bos : bool) (s : str) :
  Re.run Re.One p k bos s =
  match s with
  | c :: t => if p c then option_map (pair [c]) (k false t) else None
  | [] => None
  end.
Proof.
  destruct s as [|c t]; [reflexivity|]. simpl.
  destruct (p c); [|reflexivity].
  unfold Re.here. now destruct (k false t).
Qed.

Section SpeakerPattern.

Lemma eol_exec (bos : bool) (s : str) :
  Re.exec [Re.Eol] bos s = if Re.at_eol s then Some [[]] else None.
Proof. simpl. now destruct (Re.at_eol s). Qed.

Lemma dot_true (s : str) : ~ In nl s -> forall c, In c s -> Re.dot c = true.
Proof.
  intros H c Hc. unfold Re.dot.
  destruct (c =? nl)%N eqn:E; [|reflexivity].
  apply N.eqb_eq in E. now subst.
Qed.

(** [( .* )$] on the rest of a line takes all of it. *)
Lemma content_exec (g : bool) (bos : bool) (s : str) :
  ~ In nl s ->
  Re.exec [Re.Rep g Re.Star Re.dot; Re.Eol] bos s = Some [s; []].
Proof.
  intros H. cbn [Re.exec Re.run].
  destruct (span_all Re.dot s (dot_true s H)) as [Ht Hd].
  rewrite (greedy_max Re.dot _ s bos [[]]).
  - now rewrite Ht.
  - intros b. now rewrite Hd.
Qed.

Lemma lstrip_dropwhile (s : str) : dropwhile Re.ws s = lstrip s.
Proof.
  induction s as [|c s IH]; simpl; [reflexivity|].
  unfold Re.ws at 1. now destruct (isspace c).
Qed.

(** [\s*( .* )$] behind the colon: the blanks, then the rest. *)
Lemma after_colon_exec (bos : bool) (s : str) :
  ~ In nl s ->
  Re.exec [Re.Rep false Re.Star Re.ws; Re.Rep true Re.Star Re.dot; Re.Eol]
    bos s
  = Some [takewhile Re.ws s; lstrip s; []].
Proof.
  intros H.
  change (Re.exec [Re.Rep false Re.Star Re.ws;
                   Re.Rep true Re.Star Re.dot; Re.Eol] bos s)
    with (option_map (fun m => fst m :: snd m)
            (Re.greedy Re.ws
               (Re.exec [Re.Rep true Re.Star Re.dot; Re.Eol]) bos s)).
  rewrite (greedy_max Re.ws _ s bos [lstrip s; []]); [reflexivity|].
  intros b. rewrite lstrip_dropwhile. apply content_exec.
  intros Hin. apply H. now apply lstrip_incl.
Qed.

Lemma lit_eqb (c x : char) : Re.lit c x = (x =? c)%N.
Proof. apply N.eqb_sym. Qed.

Lemma speaker_tail_exec (bos : bool) (s : str) :
  ~ In nl s ->
  Re.exec speaker_tail bos s =
  match s with
  | c :: t =>
      if (c =? colon)%N
      then Some [[c]; takewhile Re.ws t; lstrip t; []]
      else None
  | [] => None
  end.
Proof.
  intros H. unfold speaker_tail. rewrite exec_rep, one_run.
  destruct s as [|c t]; [reflexivity|].
  rewrite lit_eqb. destruct (c =? colon)%N; [|reflexivity].
  rewrite after_colon_exec; [reflexivity|].
  intros Hin. apply H. now right.
Qed.

(** Behind the speaker both patterns want a colon first. *)
Lemma colon_first (r : Re.regex) (b : bool) (x : char) (t : str) :
  Re.not_colon x = true ->
  Re.exec (Re.Rep false Re.One (Re.lit colon) :: r) b (x :: t) = None.
Proof.
  intros Hx. rewrite exec_rep, one_run, lit_eqb.
  destruct (x =? colon)%N eqn:E; [|reflexivity].
  apply N.eqb_eq in E. subst x. discriminate.
Qed.

Lemma not_colon_false (c : char) : Re.not_colon c = false <-> c = colon.
Proof.
  unfold Re.not_colon. destruct (c =? colon)%N eqn:E; simpl.
  - apply N.eqb_eq in E. tauto.
  - apply N.eqb_neq in E. split; [discriminate|tauto].
Qed.

Lemma not_colon_true (s : str) :
  ~ In colon s -> forall c, In c s -> Re.not_colon c = true.
Proof.
  intros H c Hc. destruct (Re.not_colon c) eqn:E; [reflexivity|].
  apply not_colon_false in E. now subst.
Qed.

Lemma cut_colon_some (s a b : str) :
  cut_colon s = Some (a, b) <-> s = a ++ colon :: b /\ ~ In colon a.
Proof.
  revert a. induction s as [|c s IH]; intros a; simpl.
  - split; [discriminate|].
    intros [H _]. destruct a; discriminate.
  - destruct (c =? colon)%N eqn:E.
    + apply N.eqb_eq in E. subst c. split.
      * intros H; injection H as <- <-. simpl. tauto.
      * intros [H Hn]. destruct a as [|x a]; simpl in *.
        -- now injection H as <-.
        -- injection H as <- _. tauto.
    + apply N.eqb_neq in E. split.
      * destruct (cut_colon s) as [[a' b']|]; [|discriminate].
        intros H; injection H as <- <-.
        destruct (proj1 (IH a') eq_refl) as [-> Hn].
        simpl. split; [reflexivity|]. intros [?|?]; congruence || tauto.
      * intros [H Hn]. destruct a as [|x a]; simpl in *.
        -- injection H as -> _. congruence.
        -- injection H as <- ->.
           rewrite (proj2 (IH a)); [reflexivity|tauto].
Qed.

Lemma cut_colon_none (s : str) : cut_colon s = None <-> ~ In colon s.
Proof.
  induction s as [|c s IH]; simpl.
  - tauto.
  - destruct (c =? colon)%N eqn:E.
    + apply N.eqb_eq in E. split; [discriminate|tauto].
    + apply N.eqb_neq in E.
      destruct (cut_colon s); simpl.
      * split; [discriminate|].
        intros H. assert (Hs : ~ In colon s) by tauto.
        apply IH in Hs. discriminate.
      * split; [|reflexivity].
        intros _ [H|H]; [congruence|]. now apply (proj1 IH).
Qed.

(** The pattern of [generate_markdown] on a trimmed line: it matches when
    the line has a colon with something before the first one; the groups
    are the text before that colon and the text behind it without its
    leading blanks. *)
Lemma speaker_match (s : str) :
  ~ In nl s ->
  Re.rmatch speaker_re s =
  match cut_colon s with
  | Some (c :: a, b) => Some [c :: a; lstrip b]
  | _ => None
  end.
Proof.
  intros Hnl. unfold Re.rmatch.
  change speaker_re
    with (Re.Bol :: Re.Rep true Re.Plus Re.not_colon :: speaker_tail).
  rewrite exec_bol, exec_rep, plus_run.
  destruct s as [|c s]; [reflexivity|].
  cbn [cut_colon].
  destruct (c =? colon)%N eqn:Ec.
  { apply N.eqb_eq in Ec. subst c. reflexivity. }
  assert (Hc : Re.not_colon c = true).
  { destruct (Re.not_colon c) eqn:E; [reflexivity|].
    apply not_colon_false in E. subst c. discriminate. }
  rewrite Hc.
  assert (Hex : forall b x t,
             Re.not_colon x = true -> Re.exec speaker_tail b (x :: t) = None)
    by (intros; now apply colon_first).
  assert (Hirr : forall b b' t,
             Re.exec speaker_tail b t = Re.exec speaker_tail b' t)
    by (intros; now apply exec_irrelevant).
  rewrite (greedy_exclusive Re.not_colon _ s false Hex Hirr).
  destruct (cut_colon s) as [[a b]|] eqn:Ecut.
  - apply cut_colon_some in Ecut. destruct Ecut as [-> Ha].
    destruct (span_stop Re.not_colon a colon b (not_colon_true a Ha)
                (proj2 (not_colon_false colon) eq_refl)) as [-> ->].
    rewrite speaker_tail_exec.
    + rewrite N.eqb_refl. reflexivity.
    + intros Hin. apply Hnl. right. apply in_or_app. now right.
  - apply cut_colon_none in Ecut.
    destruct (span_all Re.not_colon s (not_colon_true s Ecut)) as [-> ->].
    reflexivity.
Qed.

End SpeakerPattern.

(** ** The markdown renderer *)

Section Markdown.

(** On a line, the loop body of [generate_markdown] does what the
    specification's wording of it says. *)
Lemma md_line_refines (l : str) : ~ In nl l -> md_line l = md_line_spec l.
Proof.
  intros Hnl. unfold md_line, md_line_spec.
  assert (Hs : ~ In nl (strip l)) by (intros H; now apply Hnl, strip_incl).
  destruct (strip l) as [|c t] eqn:El; [reflexivity|].
  destruct (contains colon (c :: t)) eqn:Ec.
  - rewrite (speaker_match _ Hs).
    destruct (cut_colon (c :: t)) as [[[|x a] b]|]; try reflexivity.
    unfold Re.group. cbn [Nat.sub nth]. now rewrite strip_lstrip.
  - apply contains_false, cut_colon_none in Ec. now rewrite Ec.
Qed.

Lemma md_line_blank (l : str) : strip l = [] -> md_line l = [].
Proof. intros H. unfold md_line. now rewrite H. Qed.

Lemma md_line_speaker (l a b : str) :
  ~ In nl l -> strip l = a ++ colon :: b -> ~ In colon a -> a <> [] ->
  md_line l = [star; star] ++ strip a ++ [colon; star; star; space] ++ strip b.
Proof.
  intros Hnl El Ha Hne. rewrite (md_line_refines l Hnl).
  unfold md_line_spec. rewrite El.
  rewrite (proj2 (cut_colon_some (a ++ colon :: b) a b) (conj eq_refl Ha)).
  destruct a; [congruence|reflexivity].
Qed.

Lemma md_line_other (l : str) :
  ~ In nl l ->
  ~ (exists a b, strip l = a ++ colon :: b /\ ~ In colon a /\ a <> []) ->
  md_line l = strip l.
Proof.
  intros Hnl Hno. rewrite (md_line_refines l Hnl). unfold md_line_spec.
  destruct (cut_colon (strip l)) as [[[|x a] b]|] eqn:E; try reflexivity.
  exfalso. apply Hno. exists (x :: a), b.
  apply cut_colon_some in E. destruct E as [E Ha].
  repeat split; [exact E|exact Ha|discriminate].
Qed.

Lemma md_line_no_nl (l : str) : ~ In nl l -> ~ In nl (md_line l).
Proof.
  intros Hnl. rewrite (md_line_refines l Hnl). unfold md_line_spec.
  assert (Hs : ~ In nl (strip l)) by (intros H; now apply Hnl, strip_incl).
  destruct (cut_colon (strip l)) as [[[|x a] b]|] eqn:E; try exact Hs.
  apply cut_colon_some in E. destruct E as [E _]. rewrite E in Hs.
  intros H. apply in_app_or in H. destruct H as [H|H].
  { simpl in H. unfold star, nl in H. intuition discriminate. }
  apply in_app_or in H. destruct H as [H|H].
  { apply strip_incl in H. apply Hs, in_or_app. now left. }
  apply in_app_or in H. destruct H as [H|H].
  { simpl in H. unfold star, colon, space, nl in H. intuition discriminate. }
  apply strip_incl in H. apply Hs, in_or_app. right. now right.
Qed.

(** The lines of the markdown are the renderings of the lines of the
    text, one for one. *)
Lemma markdown_lines (x : str) :
  split nl (generate_markdown x) = map md_line (split nl x).
Proof.
  unfold generate_markdown. apply split_join.
  - intros H. apply map_eq_nil in H. now apply split_nonempty in H.
  - apply Forall_map.
    eapply Forall_impl; [|apply split_no_sep].
    intros l Hl. now apply md_line_no_nl.
Qed.

End Markdown.

(** C3, as the code has it: the markdown has one line for each line of the
    text; a blank line (empty or of white space only) becomes the empty
    line; a line that reads [speaker: content] after trimming, with a
    speaker that is not empty, becomes the trimmed speaker in strong
    emphasis, a colon, a space and the trimmed content; every other line
    becomes the line trimmed of its leading and trailing white space; and
    "Sally: Hello!" renders as "**Sally:** Hello!". *)
Theorem markdown_line_by_line (x : str) :
  split nl (generate_markdown x) = map md_line (split nl x)
  /\ (forall l, In l (split nl x) ->
        (strip l = [] -> md_line l = [])
        /\ (forall a b,
              strip l = a ++ colon :: b -> ~ In colon a -> a <> [] ->
              md_line l
              = [star; star] ++ strip a
                ++ [colon; star; star; space] ++ strip b)
        /\ (~ (exists a b,
                 strip l = a ++ colon :: b /\ ~ In colon a /\ a <> []) ->
            md_line l = strip l))
  /\ generate_markdown (u "Sally: Hello!") = u "**Sally:** Hello!".
Proof.
  split; [apply markdown_lines|split; [|vm_compute; reflexivity]].
  intros l Hl.
  assert (Hnl : ~ In nl l).
  { pose proof (split_no_sep nl x) as H.
    rewrite Forall_forall in H. now apply H. }
  split; [apply md_line_blank|split].
  - intros a b. now apply md_line_speaker.
  - now apply md_line_other.
Qed.

Lemma markdown_line_by_line_witness :
  md_line (u "  Pete : Hi!  ") = u "**Pete:** Hi!".
Proof.
  destruct (markdown_line_by_line (u "  Pete : Hi!  ")) as (_ & H & _).
  destruct (H (u "  Pete : Hi!  ")) as (_ & Hs & _).
  - vm_compute. now left.
  - apply (Hs (u "Pete ") (u " Hi!")).
    + vm_compute. reflexivity.
    + vm_compute. intuition discriminate.
    + discriminate.
Defined.

(** C3, as stated, fails: a line that is not blank and does not match the
    speaker pattern is not passed through character for character (it is
    trimmed), and a blank line of white space is not passed through
    unchanged (it is emptied). *)
Lemma markdown_not_verbatim :
  (is_blank (u " hello") = false
   /\ Re.rmatch speaker_re (u " hello") = None
   /\ generate_markdown (u " hello") <> u " hello")
  /\ (is_blank (u "  ") = true
      /\ generate_markdown (u "  ") <> u "  ").
Proof.
  repeat split; try (vm_compute; reflexivity); vm_compute; discriminate.
Qed.

(** C6: the markdown has as many lines as the text, and where the text has
    a blank line the markdown has a blank line. *)
Theorem markdown_preserves_lines (x : str) :
  length (split nl (generate_markdown x)) = length (split nl x)
  /\ forall i l,
       nth_error (split nl x) i = Some l -> is_blank l = true ->
       exists l',
         nth_error (split nl (generate_markdown x)) i = Some l'
         /\ is_blank l' = true.
Proof.
  rewrite markdown_lines. split; [apply length_map|].
  intros i l Hi Hb. exists [].
  split; [|reflexivity].
  rewrite nth_error_map, Hi. simpl. f_equal.
  apply md_line_blank. unfold is_blank in Hb.
  destruct (strip l); [reflexivity|discriminate].
Qed.

Lemma markdown_preserves_lines_witness :
  exists l',
    nth_error
      (split nl (generate_markdown (u "Sally: Hi!" ++ [nl; space; nl] ++ u "Bye")))
      1 = Some l'
    /\ is_blank l' = true.
Proof.
  apply (proj2 (markdown_preserves_lines
                  (u "Sally: Hi!" ++ [nl; space; nl] ++ u "Bye")) 1 [space]).
  - vm_compute. reflexivity.
  - vm_compute. reflexivity.
Defined.

(** ** The dialogue counter *)

Lemma dialogue_not_blank (l : str) :
  is_dialogue l = true -> is_blank l = false.
Proof.
  unfold is_dialogue, is_blank. destruct (strip l); [discriminate|reflexivity].
Qed.

Lemma count_loop_bounds (ls : list str) (n : Z) :
  (n <= count_loop ls n
   <= n + Z.of_nat (length (filter (fun l => negb (is_blank l)) ls)))%Z.
Proof.
  revert n. induction ls as [|l ls IH]; intros n; simpl.
  - lia.
  - destruct (is_dialogue l) eqn:Ed.
    + rewrite (dialogue_not_blank l Ed). simpl.
      specialize (IH (n + 1)%Z). lia.
    + specialize (IH n). destruct (is_blank l); simpl; lia.
Qed.

(** C7: the count is not negative and at most the number of lines that are
    not blank; on the sample it is 1. *)
Theorem count_dialogues_bounds (x : str) :
  (0 <= count_dialogues x
   <= Z.of_nat (length (filter (fun l => negb (is_blank l)) (split nl x))))%Z
  /\ count_dialogues (u "Sally: Hi!" ++ [nl; nl] ++ u "Not a dialogue line")
     = 1%Z.
Proof.
  split; [|vm_compute; reflexivity].
  unfold count_dialogues.
  pose proof (count_loop_bounds (split nl x) 0). lia.
Qed.





(** ** The completion client *)

Section Client.

Variable self : DialogueTranslator.
Variables content filename : str.

(** [translate_entire_file] sends one request and returns what the
    [except] clauses make of the attempt. *)
Lemma translate_outcome (w : world) :
  translate_entire_file self content filename w
  = (handled (attempt (provider w (length (calls w))
                         (translation_request self content))),
     sent (translation_request self content) w).
Proof.
  unfold translate_entire_file, try_except, bind, requests_post, lift, ret.
  fold (translation_request self content).
  fold (sent (translation_request self content) w).
  destruct (provider w (length (calls w)) (translation_request self content))
    as [msg|e0|r]; [reflexivity|destruct e0; reflexivity|].
  unfold attempt, extract_content.
  destruct (raise_for_status r) as [[]|e1]; [|destruct e1; reflexivity].
  destruct (response_json r) as [v|e2]; [|destruct e2; reflexivity].
  destruct (getitem_key v (u "choices")) as [v1|e3];
    [|destruct e3; reflexivity].
  destruct (getitem_0 v1) as [v2|e4]; [|destruct e4; reflexivity].
  destruct (getitem_key v2 (u "message")) as [v3|e5];
    [|destruct e5; reflexivity].
  destruct (getitem_key v3 (u "content")) as [v4|e6];
    [|destruct e6; reflexivity].
  destruct (call_strip v4) as [t|e7]; [|destruct e7]; reflexivity.
Qed.

(** One request for each call, whatever the outcome. *)
Lemma translate_one_call (w : world) :
  calls (snd (translate_entire_file self content filename w))
  = calls w ++ [translation_request self content].
Proof. now rewrite translate_outcome. Qed.

(** A failure of the transport comes back as text. *)
Lemma translate_transport_failure (w : world) (msg : str) :
  provider w (length (calls w)) (translation_request self content)
  = PostRaised msg ->
  fst (translate_entire_file self content filename w) = Ok (api_failed msg).
Proof. intros H. now rewrite translate_outcome, H. Qed.

(** A status of the 4xx or 5xx range comes back as text. *)
Lemma translate_http_error (w : world) (r : response) :
  provider w (length (calls w)) (translation_request self content)
  = PostReturned r ->
  (400 <= status_code r < 600)%Z ->
  fst (translate_entire_file self content filename w)
  = Ok (api_failed (status_error r)).
Proof.
  intros H Hs. rewrite translate_outcome, H. simpl.
  unfold raise_for_status.
  replace ((400 <=? status_code r) && (status_code r <? 600))%Z with true;
    [reflexivity|].
  symmetry. apply andb_true_intro. split; [apply Z.leb_le|apply Z.ltb_lt]; lia.
Qed.

Lemma assoc_missing (A : Type) (key : str) (d : list (str * A)) :
  ~ In key (map fst d) -> assoc key d = None.
Proof.
  induction d as [|[k' v] d IH]; simpl; intros H; [reflexivity|].
  unfold str_eqb. destruct (list_eq_dec N.eq_dec key k') as [E|E].
  - subst. tauto.
  - apply IH. tauto.
Qed.

(** A decoded object without the key ['choices'] comes back as text. *)
Lemma translate_missing_choices (w : world) (r : response)
  (d : list (str * json)) :
  provider w (length (calls w)) (translation_request self content)
  = PostReturned r ->
  (status_code r < 400 \/ 600 <= status_code r)%Z ->
  reply r = Json (JObj d) -> ~ In (u "choices") (map fst d) ->
  fst (translate_entire_file self content filename w)
  = Ok (parse_failed (u "'choices'")).
Proof.
  intros H Hs Hr Hd. rewrite translate_outcome, H. simpl.
  unfold raise_for_status.
  replace ((400 <=? status_code r) && (status_code r <? 600))%Z with false.
  - unfold response_json. rewrite Hr. unfold extract_content. simpl.
    now rewrite (assoc_missing _ _ d Hd).
  - symmetry. apply andb_false_iff.
    destruct Hs; [left; apply Z.leb_gt|right; apply Z.ltb_ge]; lia.
Qed.

(** A reply of the expected shape comes back trimmed. *)
Lemma translate_success (w : world) (text : str) :
  provider w (length (calls w)) (translation_request self content)
  = PostReturned (ok_response (completion (JStr text))) ->
  fst (translate_entire_file self content filename w) = Ok (strip text).
Proof. intros H. now rewrite translate_outcome, H. Qed.

(** C1, where the code departs from it: when the provider answers with
    status 200 and a completion whose content is [null], the call of
    [strip] raises [AttributeError], no [except] clause takes it, and
    [translate_entire_file] raises instead of returning a text. *)
Theorem translate_raises_on_null_content :
  fst (translate_entire_file self content filename null_content_world)
  = Raise AttributeError.
Proof. rewrite translate_outcome. reflexivity. Qed.

(** C9: [process_content] returns when the translator returns, and its
    count is then [count_dialogues] of the text it was given, whatever the
    translator returned; it raises only what the translator raises. *)
Theorem process_content_count (cb : callback) (w : world) :
  fst (process_content self content filename cb w)
  = match fst (translate_entire_file self content filename
                 (at_translation cb w)) with
    | Ok translated =>
        Ok (generate_markdown translated, generate_txt translated,
            count_dialogues content)
    | Raise e => Raise e
    end.
Proof.
  unfold process_content, at_translation, bind.
  destruct cb as [f|]; simpl;
    destruct (translate_entire_file self content filename _) as [[t|e] w'];
    reflexivity.
Qed.

End Client.

(** ** The batch *)

Section Batch.

(** C8: with more files than [MAX_FILES], [main] returns at once: no
    request is sent, the page gains one message and no event of the loop
    over the files, and the locals that would hold the results and the
    count of processed files are never created. *)
Theorem too_many_files_rejected (api_key : str)
  (uploaded_files : list uploaded_file) (start : bool) (w : world) :
  (Z.of_nat (length uploaded_files) > MAX_FILES)%Z ->
  let out := main api_key uploaded_files start w in
  fst out = Ok None
  /\ calls (snd out) = calls w
  /\ filter is_file_event (page (snd out)) = filter is_file_event (page w)
  /\ (api_key <> [] ->
      page (snd out)
      = page w ++ [ErrorTooMany MAX_FILES (Z.of_nat (length uploaded_files))]).
Proof.
  intros Hmany. unfold main.
  destruct api_key as [|k key].
  - simpl. rewrite filter_app, app_nil_r. repeat split; congruence.
  - destruct uploaded_files as [|f files]; [simpl in Hmany; unfold MAX_FILES in *; lia|].
    set (n := Z.of_nat (length (f :: files))) in *.
    replace (n >? MAX_FILES)%Z with true
      by (symmetry; now apply Z.gtb_lt, Z.gt_lt).
    simpl. rewrite filter_app, app_nil_r. repeat split; reflexivity.
Qed.

Lemma too_many_files_rejected_witness :
  fst (main (u "sk-key") six_files true helpful_world) = Ok None
  /\ calls (snd (main (u "sk-key") six_files true helpful_world)) = [].
Proof.
  destruct (too_many_files_rejected (u "sk-key") six_files true helpful_world)
    as (H1 & H2 & _).
  - vm_compute. reflexivity.
  - split; [exact H1|exact H2].
Defined.

(** Within the limit the loop runs: one upload, one request, one entry. *)
Example one_file_processed :
  let out := main (u "sk-key") one_file true helpful_world in
  length (calls (snd out)) = 1
  /\ exists b,
       fst out = Ok (Some b)
       /\ success_count b = 1%Z
       /\ total_dialogue_count b = 1%Z
       /\ map fst (batch_results b) = [u "talk.txt"].
Proof.
  vm_compute. split; [reflexivity|].
  eexists. repeat split.
Qed.

End Batch.

(** ** The bundle *)

Section Bundle.

Lemma encode_utf8 (s : str) : utf8_encode s <> None -> encode s = Ok (utf8 s).
Proof.
  unfold encode, utf8. destruct (utf8_encode s); [reflexivity|congruence].
Qed.

(** A text has a UTF-8 encoding exactly when it holds code points only,
    none of them a surrogate. *)
Lemma encodable_iff (s : str) :
  utf8_encode s <> None
  <-> Forall (fun c => (c < 1114112)%N /\ is_surrogate c = false) s.
Proof.
  induction s as [|c s IH]; simpl.
  - split; [constructor|discriminate].
  - assert (Hc : encode_char c <> None
                 <-> (c < 1114112)%N /\ is_surrogate c = false).
    { unfold encode_char, is_surrogate.
      destruct (c <? 128)%N eqn:E1; [apply N.ltb_lt in E1|apply N.ltb_ge in E1].
      { split; [intros _|discriminate]. split; [lia|].
        apply andb_false_iff. left. apply N.leb_gt. lia. }
      destruct (c <? 2048)%N eqn:E2; [apply N.ltb_lt in E2|apply N.ltb_ge in E2].
      { split; [intros _|discriminate]. split; [lia|].
        apply andb_false_iff. left. apply N.leb_gt. lia. }
      destruct (c <? 65536)%N eqn:E3; [apply N.ltb_lt in E3|apply N.ltb_ge in E3].
      { destruct ((55296 <=? c) && (c <=? 57343))%N.
        - split; [congruence|intros [_ ?]; discriminate].
        - split; [intros _; split; [lia|reflexivity]|discriminate]. }
      destruct (c <? 1114112)%N eqn:E4; [apply N.ltb_lt in E4|apply N.ltb_ge in E4].
      { split; [intros _|discriminate]. split; [lia|].
        apply andb_false_iff. right. apply N.leb_gt. lia. }
      split; [congruence|intros [? _]; lia]. }
    split.
    + intros H. destruct (encode_char c) eqn:Ec; [|congruence].
      destruct (utf8_encode s) eqn:Es; [|congruence].
      constructor; [apply Hc; congruence|apply IH; congruence].
    + intros H. inversion H as [|? ? H1 H2]; subst.
      apply Hc in H1. apply IH in H2.
      destruct (encode_char c); [|congruence].
      destruct (utf8_encode s); [discriminate|congruence].
Qed.

Lemma writestr_stores (z : archive) (name : str) (d : bytes) :
  name_error name = None ->
  writestr z name d
  = Ok (z ++ [{| member_name := zip_name name; member_data := d |}]).
Proof. intros H. unfold writestr. now rewrite H. Qed.

Lemma storable_name (name : str) :
  storable name = true -> zip_name name = name /\ name_error name = None.
Proof.
  unfold storable, str_eqb. intros H. apply andb_prop in H.
  destruct H as [H1 H2].
  destruct (list_eq_dec N.eq_dec (zip_name name) name); [|discriminate].
  destruct (name_error name); [discriminate|]. now split.
Qed.

(** The loop appends the two members of each entry, entry after entry,
    under the names [zipfile] gives them. *)
Lemma zip_loop_stored (rs : results) (acc : archive) :
  (forall f r, In (f, r) rs ->
     utf8_encode (markdown r) <> None /\ utf8_encode (txt r) <> None
     /\ name_error (md_member_name f) = None
     /\ name_error (txt_member_name f) = None) ->
  zip_loop rs acc = Ok (acc ++ flat_map stored_members rs).
Proof.
  revert acc. induction rs as [|[f r] rs IH]; intros acc H; simpl.
  - now rewrite app_nil_r.
  - destruct (H f r (or_introl eq_refl)) as (Hm & Ht & Hnm & Hnt).
    rewrite (encode_utf8 _ Hm), (writestr_stores _ _ _ Hnm).
    rewrite (encode_utf8 _ Ht), (writestr_stores _ _ _ Hnt).
    rewrite IH by (intros f' r' Hin; apply (H f' r'); now right).
    now rewrite <- !app_assoc.
Qed.

Lemma stored_as_named (rs : results) :
  (forall f r, In (f, r) rs ->
     storable (md_member_name f) = true
     /\ storable (txt_member_name f) = true) ->
  flat_map stored_members rs = flat_map entry_members rs.
Proof.
  induction rs as [|[f r] rs IH]; intros H; [reflexivity|].
  destruct (H f r (or_introl eq_refl)) as [Hm Ht].
  apply storable_name in Hm, Ht. destruct Hm as [Em _], Ht as [Et _].
  cbn [flat_map stored_members entry_members fst snd app].
  rewrite Em, Et, IH; [reflexivity|].
  intros f' r' Hin. apply (H f' r'). now right.
Qed.

(** With names that are stored as they are, the members are the two
    members of each entry. *)
Lemma zip_loop_members (rs : results) (acc : archive) :
  (forall f r, In (f, r) rs ->
     utf8_encode (markdown r) <> None /\ utf8_encode (txt r) <> None
     /\ storable (md_member_name f) = true
     /\ storable (txt_member_name f) = true) ->
  zip_loop rs acc = Ok (acc ++ flat_map entry_members rs).
Proof.
  intros H. rewrite <- stored_as_named.
  - apply zip_loop_stored. intros f r Hin.
    destruct (H f r Hin) as (Hm & Ht & Sm & St).
    apply storable_name in Sm, St. tauto.
  - intros f r Hin. destruct (H f r Hin) as (_ & _ & Sm & St). tauto.
Qed.

Lemma zip_read_app (a b : archive) (name : str) :
  zip_read (a ++ b) name =
  match zip_read b name with
  | Some d => Some d
  | None => zip_read a name
  end.
Proof.
  induction a as [|m a IH]; simpl.
  - now destruct (zip_read b name).
  - rewrite IH. now destruct (zip_read b name).
Qed.

Lemma zip_read_absent (a : archive) (name : str) :
  ~ In name (namelist a) -> zip_read a name = None.
Proof.
  induction a as [|m a IH]; simpl; intros H; [reflexivity|].
  rewrite IH by tauto.
  unfold str_eqb. destruct (list_eq_dec N.eq_dec (member_name m) name);
    [tauto|reflexivity].
Qed.

Lemma str_eqb_refl (s : str) : str_eqb s s = true.
Proof. unfold str_eqb. now destruct (list_eq_dec N.eq_dec s s). Qed.

Lemma str_eqb_neq (s t : str) : s <> t -> str_eqb s t = false.
Proof. unfold str_eqb. now destruct (list_eq_dec N.eq_dec s t). Qed.

(** The two names of an entry end differently. *)
Lemma md_txt_names_differ (f f' : str) :
  md_member_name f <> txt_member_name f'.
Proof.
  unfold md_member_name, txt_member_name. intros H.
  apply (f_equal (@rev char)) in H. rewrite !rev_app_distr in H.
  set (a := rev (u "_translated.md")) in H.
  set (b := rev (u "_translated.txt")) in H.
  vm_compute in a, b. subst a b. discriminate.
Qed.

Lemma md_name_stem (f f' : str) :
  md_member_name f = md_member_name f' -> path_stem f = path_stem f'.
Proof. apply app_inv_tail. Qed.

Lemma txt_name_stem (f f' : str) :
  txt_member_name f = txt_member_name f' -> path_stem f = path_stem f'.
Proof. apply app_inv_tail. Qed.

Lemma names_of_members (rs : results) (name : str) :
  In name (namelist (flat_map entry_members rs)) ->
  exists f r, In (f, r) rs
              /\ (name = md_member_name f \/ name = txt_member_name f).
Proof.
  induction rs as [|[f r] rs IH]; simpl; [tauto|].
  intros [H|[H|H]].
  - exists f, r. auto.
  - exists f, r. auto.
  - destruct (IH H) as (f' & r' & Hin & Hn). exists f', r'. auto.
Qed.

Lemma stem_absent (rs : results) (f : str) :
  ~ In (path_stem f) (map (fun e => path_stem (fst e)) rs) ->
  ~ In (md_member_name f) (namelist (flat_map entry_members rs))
  /\ ~ In (txt_member_name f) (namelist (flat_map entry_members rs)).
Proof.
  intros Hf.
  assert (Hstem : forall f' r', In (f', r') rs -> path_stem f <> path_stem f').
  { intros f' r' Hin E. apply Hf. rewrite E.
    now apply (in_map (fun e => path_stem (fst e)) rs (f', r')). }
  split; intros H; apply names_of_members in H;
    destruct H as (f' & r' & Hin & [E|E]).
  - apply (Hstem f' r' Hin). now apply md_name_stem.
  - exact (md_txt_names_differ _ _ E).
  - exact (md_txt_names_differ _ _ (eq_sym E)).
  - apply (Hstem f' r' Hin). now apply txt_name_stem.
Qed.

(** With stems that differ from entry to entry, a name leads to the
    member written for it. *)
Lemma read_by_name (rs : results) :
  NoDup (map (fun e => path_stem (fst e)) rs) ->
  forall f r, In (f, r) rs ->
    zip_read (flat_map entry_members rs) (md_member_name f)
    = Some (utf8 (markdown r))
    /\ zip_read (flat_map entry_members rs) (txt_member_name f)
       = Some (utf8 (txt r)).
Proof.
  induction rs as [|[f0 r0] rs IH]; intros Hnd f r Hin; [contradiction|].
  simpl in Hnd. inversion Hnd as [|? ? Hnot Hnd']; subst.
  change (flat_map entry_members ((f0, r0) :: rs))
    with (entry_members (f0, r0) ++ flat_map entry_members rs).
  rewrite !zip_read_app.
  destruct Hin as [E|Hin].
  - injection E as -> ->.
    destruct (stem_absent rs f Hnot) as [Hmd Htxt].
    rewrite (zip_read_absent _ _ Hmd), (zip_read_absent _ _ Htxt).
    simpl.
    rewrite (str_eqb_neq _ _ (fun E => md_txt_names_differ f f (eq_sym E))).
    now rewrite !str_eqb_refl.
  - destruct (IH Hnd' f r Hin) as [-> ->]. tauto.
Qed.

(** C4, as the code has it: when every rendering has a UTF-8 encoding and
    every member name is one that [zipfile] stores as it is (no NUL
    character, a UTF-8 encoding of at most 65535 octets), the archive is
    produced and its members are, entry by entry in insertion order, the
    markdown member and the text member holding the encodings; when
    moreover the stems differ from entry to entry, extracting by name
    yields each entry's encodings; the empty mapping gives the archive
    without members. *)
Theorem bundle_members (rs : results) :
  (forall f r, In (f, r) rs ->
     utf8_encode (markdown r) <> None /\ utf8_encode (txt r) <> None
     /\ storable (md_member_name f) = true
     /\ storable (txt_member_name f) = true) ->
  create_download_zip rs = Ok (flat_map entry_members rs)
  /\ namelist (flat_map entry_members rs) = flat_map entry_names rs
  /\ (NoDup (map (fun e => path_stem (fst e)) rs) ->
      forall f r, In (f, r) rs ->
        zip_read (flat_map entry_members rs) (md_member_name f)
        = Some (utf8 (markdown r))
        /\ zip_read (flat_map entry_members rs) (txt_member_name f)
           = Some (utf8 (txt r)))
  /\ create_download_zip [] = Ok [].
Proof.
  intros Henc. repeat split.
  - unfold create_download_zip. now rewrite zip_loop_members.
  - unfold namelist. induction rs as [|e rs IH]; [reflexivity|].
    simpl. do 2 f_equal. apply IH. intros f' r' Hin; apply (Henc f' r'); now right.
  - now apply read_by_name.
  - now apply read_by_name.
Qed.

Lemma bundle_members_witness :
  create_download_zip [(u "a.txt", plain (u "你好")); (u "b.md", plain (u "Hi"))]
  = Ok (flat_map entry_members
          [(u "a.txt", plain (u "你好")); (u "b.md", plain (u "Hi"))]).
Proof.
  apply (bundle_members
           [(u "a.txt", plain (u "你好")); (u "b.md", plain (u "Hi"))]).
  intros f r [E|[E|[]]]; injection E as <- <-;
    repeat split; vm_compute; discriminate || reflexivity.
Defined.

(** An entry whose text member name is refused ends the loop. *)
Lemma txt_name_refused (f : str) (r : rendered) (e : exn) :
  utf8_encode (markdown r) <> None -> utf8_encode (txt r) <> None ->
  name_error (md_member_name f) = None ->
  name_error (txt_member_name f) = Some e ->
  create_download_zip [(f, r)] = Raise e.
Proof.
  intros Hm Ht Hnm Hnt. unfold create_download_zip. cbn [zip_loop].
  rewrite (encode_utf8 _ Hm), (writestr_stores _ _ _ Hnm), (encode_utf8 _ Ht).
  unfold writestr. now rewrite Hnt.
Qed.

Lemma long_name_refused :
  create_download_zip long_name_results = Raise StructError.
Proof.
  apply (txt_name_refused (repeat 97%N (N.to_nat 65521) ++ u ".txt")
           (plain (u "x")) StructError).
  - vm_compute. discriminate.
  - vm_compute. discriminate.
  - vm_compute. reflexivity.
  - vm_compute. reflexivity.
Qed.

(** C4, as stated, fails on these mappings: with two names of one stem the
    member of the first entry's name holds the second entry's rendering;
    with a lone surrogate in a rendering no archive is produced; with a NUL
    character in a name the members are named by what is before it; with a
    lone surrogate in a name, or a name too long for the header, no archive
    is produced. *)
Lemma bundle_claim_fails :
  ~ bundle_as_claimed colliding_results
  /\ ~ bundle_as_claimed surrogate_results
  /\ ~ bundle_as_claimed nul_name_results
  /\ ~ bundle_as_claimed surrogate_name_results
  /\ ~ bundle_as_claimed long_name_results.
Proof.
  repeat split.
  - intros (a & Ha & _ & H).
    vm_compute in Ha. injection Ha as <-.
    destruct (H (u "a.txt") (plain (u "one")) (or_introl eq_refl))
      as ((b & Hb & Hr) & _).
    vm_compute in Hb, Hr. congruence.
  - intros (a & Ha & _). vm_compute in Ha. discriminate.
  - intros (a & Ha & Hn & _).
    vm_compute in Ha. injection Ha as <-.
    vm_compute in Hn. discriminate.
  - intros (a & Ha & _). vm_compute in Ha. discriminate.
  - intros (a & Ha & _). rewrite long_name_refused in Ha. discriminate.
Qed.

End Bundle.

(* ================================================================== *)
(** * Further properties *)
(* ================================================================== *)

(** ** Tag stripping, line by line *)

Section TagLines.

Lemma sub_tag_bos (s : str) (n : nat) (b b' : bool) :
  Re.sub_from tag_re [] b n s = Re.sub_from tag_re [] b' n s.
Proof.
  destruct n as [|n], s as [|c s]; cbn [Re.sub_from]; try reflexivity;
    now rewrite (tag_exec _ b), (tag_exec _ b').
Qed.

(** What lies behind the next newline does not decide whether a bracket
    closes. *)
Lemma tag_body_app_nl (t y : str) : tag_body (t ++ nl :: y) = tag_body t.
Proof.
  induction t as [|c t IH]; simpl; [reflexivity|].
  destruct (c =? rbracket)%N; [reflexivity|].
  destruct (c =? nl)%N; [reflexivity|].
  now rewrite IH.
Qed.

Lemma tag_body_length (t b : str) :
  tag_body t = Some b -> S (length b) <= length t.
Proof.
  intros H. destruct (tag_body_some t b H) as (rest & -> & _).
  rewrite length_app. simpl. lia.
Qed.

(** The substitution goes through a newline as through a wall: the text
    before it and the text behind it are treated apart. *)
Lemma sub_tag_app (x y : str) (n : nat) (b : bool) :
  n <= length x ->
  Re.sub_from tag_re [] b n (x ++ nl :: y)
  = Re.sub_from tag_re [] b n x ++ nl :: Re.sub_from tag_re [] false 0 y.
Proof.
  revert n b. induction x as [|c x IH]; intros n b Hn.
  - assert (n = 0) by (simpl in Hn; lia). subst n.
    cbn [app]. rewrite sub_tag_nil.
    rewrite sub_tag_keep; [reflexivity|].
    now rewrite tag_exec.
  - destruct n as [|n].
    + cbn [app].
      destruct (Re.exec tag_re b (c :: x)) as [segs|] eqn:E.
      * rewrite tag_exec in E.
        destruct (c =? lbracket)%N eqn:Elb; [|discriminate].
        destruct (tag_body x) as [body|] eqn:Eb; [|discriminate].
        apply N.eqb_eq in Elb.
        rewrite (sub_tag_drop b c x body Elb Eb).
        rewrite (sub_tag_drop b c (x ++ nl :: y) body Elb)
          by (now rewrite tag_body_app_nl).
        apply IH. now apply tag_body_length.
      * rewrite (sub_tag_keep b c x E).
        rewrite sub_tag_keep.
        -- cbn [app]. f_equal. apply IH. lia.
        -- rewrite tag_exec in *. now rewrite tag_body_app_nl.
    + cbn [app Re.sub_from]. apply IH. simpl in Hn. lia.
Qed.

(** The substitution only drops characters. *)
Lemma sub_tag_incl (s : str) (n : nat) (b : bool) :
  incl (Re.sub_from tag_re [] b n s) s
  /\ length (Re.sub_from tag_re [] b n s) <= length s.
Proof.
  revert n b. induction s as [|c s IH]; intros n b.
  - rewrite sub_tag_nil. split; [apply incl_refl|lia].
  - destruct n as [|n].
    + destruct (Re.exec tag_re b (c :: s)) as [segs|] eqn:E.
      * rewrite tag_exec in E.
        destruct (c =? lbracket)%N eqn:Elb; [|discriminate].
        destruct (tag_body s) as [body|] eqn:Eb; [|discriminate].
        apply N.eqb_eq in Elb.
        rewrite (sub_tag_drop b c s body Elb Eb).
        destruct (IH (S (length body)) false) as [Hi Hl].
        split; [now apply incl_tl|simpl; lia].
      * rewrite (sub_tag_keep b c s E).
        destruct (IH 0 false) as [Hi Hl].
        split; [|simpl; lia].
        intros z [Hz|Hz]; [now left|right; now apply Hi].
    + cbn [Re.sub_from]. destruct (IH n false) as [Hi Hl].
      split; [now apply incl_tl|simpl; lia].
Qed.

Lemma join_split (sep : char) (s : str) : join [sep] (split sep s) = s.
Proof.
  induction s as [|c s IH]; [reflexivity|]. simpl.
  destruct (c =? sep)%N eqn:E.
  - apply N.eqb_eq in E. subst c.
    destruct (split sep s) as [|l ls] eqn:Es; [now apply split_nonempty in Es|].
    simpl in *. now rewrite IH.
  - destruct (split sep s) as [|l ls] eqn:Es; [now apply split_nonempty in Es|].
    simpl in *. destruct ls; simpl in *; now rewrite <- IH.
Qed.

Lemma clean_join (ls : list str) :
  clean_tags_from_content (join [nl] ls)
  = join [nl] (map clean_tags_from_content ls).
Proof.
  induction ls as [|l ls IH]; [reflexivity|].
  destruct ls as [|l' ls']; [reflexivity|].
  change (join [nl] (l :: l' :: ls')) with (l ++ nl :: join [nl] (l' :: ls')).
  unfold clean_tags_from_content, Re.sub in *.
  rewrite sub_tag_app by lia.
  rewrite (sub_tag_bos _ 0 false true), IH. reflexivity.
Qed.

End TagLines.

(** X1: a text without an opening bracket, or without a closing one, is
    left as it is. *)
Theorem clean_without_brackets (x : str) :
  contains lbracket x = false \/ contains rbracket x = false ->
  clean_tags_from_content x = x.
Proof.
  intros H. apply sub_tag_id.
  destruct (Re.search_from tag_re true x) eqn:E; [|reflexivity].
  apply search_tag_spec in E. destruct E as (a & b & c & -> & _).
  destruct H as [H|H]; apply contains_false in H; exfalso; apply H.
  - apply in_or_app. right. now left.
  - apply in_or_app. right. right. apply in_or_app. right. now left.
Qed.

Lemma clean_without_brackets_witness :
  clean_tags_from_content (u "Sally: ] Hello!") = u "Sally: ] Hello!".
Proof.
  apply (clean_without_brackets (u "Sally: ] Hello!")).
  left. vm_compute. reflexivity.
Defined.

(** X2: tags are removed line by line: the lines of the cleaned text are
    the cleaned lines of the text, so the number of lines stays. *)
Theorem clean_line_by_line (x : str) :
  split nl (clean_tags_from_content x)
  = map clean_tags_from_content (split nl x).
Proof.
  rewrite <- (join_split nl x) at 1. rewrite clean_join.
  apply split_join.
  - intros H. apply map_eq_nil in H. now apply split_nonempty in H.
  - apply Forall_map. eapply Forall_impl; [|apply split_no_sep].
    intros l Hl Hin. apply Hl.
    now apply (proj1 (sub_tag_incl l 0 true)).
Qed.

(** X3: tag stripping never adds: the cleaned text is no longer than the
    text and holds no character the text does not hold. *)
Theorem clean_only_drops (x : str) :
  length (clean_tags_from_content x) <= length x
  /\ incl (clean_tags_from_content x) x.
Proof.
  destruct (sub_tag_incl x 0 true) as [Hi Hl]. now split.
Qed.

(** ** The dialogue counter, line by line *)

Section CounterLines.

(** [.+$] on the rest of a line wants the rest not to be empty. *)
Lemma plus_dot_exec (g : bool) (bos : bool) (t : str) :
  ~ In nl t ->
  Re.exec [Re.Rep g Re.Plus Re.dot; Re.Eol] bos t
  = match t with
    | [] => None
    | _ :: _ => Some [t; []]
    end.
Proof.
  intros H. rewrite exec_rep, plus_run.
  destruct t as [|c t]; [reflexivity|].
  rewrite (dot_true (c :: t) H c) by now left.
  assert (Ht : ~ In nl t) by (intros Hin; apply H; now right).
  destruct (span_all Re.dot t (dot_true t Ht)) as [Htw Hdw].
  rewrite (greedy_max Re.dot _ t false [[]]).
  - now rewrite Htw.
  - intros b. now rewrite Hdw.
Qed.

(** [\s*.+$] matches what is behind the colon exactly when something is
    there: a rest of blanks only is matched by giving one blank back. *)
Lemma utterance_exec (bos : bool) (b : str) :
  ~ In nl b ->
  (exists segs, Re.exec utterance_re bos b = Some segs) <-> b <> [].
Proof.
  intros Hnl. unfold utterance_re. rewrite exec_rep.
  change (Re.run Re.Star Re.ws) with (Re.greedy Re.ws).
  set (k := Re.exec [Re.Rep false Re.Plus Re.dot; Re.Eol]).
  assert (Hk : forall b' t, ~ In nl t ->
                 k b' t = match t with [] => None | _ :: _ => Some [t; []] end)
    by (intros; now apply plus_dot_exec).
  split.
  - intros [segs H] ->. cbn [Re.greedy] in H. unfold Re.here in H.
    rewrite (Hk bos []) in H by tauto. discriminate.
  - intros Hne.
    assert (Hg : exists r, Re.greedy Re.ws k bos b = Some r).
    { revert bos Hne.
      induction b as [|c b IH]; intros bos Hne; [congruence|].
      assert (Hb : ~ In nl b) by (intros Hin; apply Hnl; now right).
      assert (Hhere : exists r, Re.here k bos (c :: b) = Some r).
      { unfold Re.here. rewrite (Hk bos (c :: b) Hnl). simpl. eauto. }
      cbn [Re.greedy]. destruct (Re.ws c); [|exact Hhere].
      destruct (Re.more c (Re.greedy Re.ws k false b)) as [r|];
        [eauto|exact Hhere]. }
    destruct Hg as [r ->]. cbn [option_map]. eauto.
Qed.

(** The pattern of the counter on a line: a speaker that is not empty
    before the first colon, and something behind that colon. *)
Lemma dialogue_match (s : str) :
  ~ In nl s ->
  match Re.rmatch dialogue_re s with Some _ => true | None => false end
  = match cut_colon s with
    | Some (_ :: _, _ :: _) => true
    | _ => false
    end.
Proof.
  intros Hnl. unfold Re.rmatch.
  change dialogue_re
    with (Re.Bol :: Re.Rep false Re.Plus Re.not_colon :: dialogue_tail).
  rewrite exec_bol, exec_rep, plus_run.
  destruct s as [|c s]; [reflexivity|].
  cbn [cut_colon].
  destruct (c =? colon)%N eqn:Ec.
  { apply N.eqb_eq in Ec. subst c. reflexivity. }
  assert (Hc : Re.not_colon c = true).
  { destruct (Re.not_colon c) eqn:E; [reflexivity|].
    apply not_colon_false in E. subst c. discriminate. }
  rewrite Hc.
  rewrite (greedy_exclusive Re.not_colon _ s false);
    [|intros; now apply colon_first|intros; now apply exec_irrelevant].
  destruct (cut_colon s) as [[a b]|] eqn:Ecut.
  - apply cut_colon_some in Ecut. destruct Ecut as [-> Ha].
    destruct (span_stop Re.not_colon a colon b (not_colon_true a Ha)
                (proj2 (not_colon_false colon) eq_refl)) as [-> ->].
    assert (Hb : ~ In nl b).
    { intros Hin. apply Hnl. right. apply in_or_app. right. now right. }
    change dialogue_tail
      with (Re.Rep false Re.One (Re.lit colon) :: utterance_re).
    rewrite exec_rep, one_run, lit_eqb, N.eqb_refl.
    pose proof (utterance_exec false b Hb) as Hu.
    destruct (Re.exec utterance_re false b) as [segs|].
    + destruct b; [|reflexivity].
      exfalso. now apply (proj1 Hu); eauto.
    + destruct b; [reflexivity|].
      destruct (proj2 Hu) as [segs H]; [discriminate|discriminate].
  - apply cut_colon_none in Ecut.
    destruct (span_all Re.not_colon s (not_colon_true s Ecut)) as [-> ->].
    reflexivity.
Qed.

Lemma is_dialogue_shape (l : str) :
  ~ In nl l -> is_dialogue l = dialogue_shape l.
Proof.
  intros Hnl. unfold is_dialogue, dialogue_shape.
  assert (Hs : ~ In nl (strip l)) by (intros H; now apply Hnl, strip_incl).
  destruct (strip l) as [|c t] eqn:El; [reflexivity|].
  destruct (contains colon (c :: t)) eqn:Ec.
  - now apply dialogue_match.
  - apply contains_false, cut_colon_none in Ec. now rewrite Ec.
Qed.

Lemma count_loop_filter (ls : list str) (n : Z) :
  count_loop ls n = (n + Z.of_nat (length (filter is_dialogue ls)))%Z.
Proof.
  revert n. induction ls as [|l ls IH]; intros n; simpl; [lia|].
  rewrite IH. destruct (is_dialogue l); simpl length; lia.
Qed.

Lemma split_app_nl (sep : char) (x y : str) :
  split sep (x ++ sep :: y) = split sep x ++ split sep y.
Proof.
  induction x as [|c x IH]; simpl.
  - now rewrite N.eqb_refl.
  - rewrite IH. destruct (c =? sep)%N; [reflexivity|].
    destruct (split sep x) as [|l ls] eqn:E; [now apply split_nonempty in E|].
    reflexivity.
Qed.

End CounterLines.

(** X4: the counter counts the lines that, once trimmed, have a speaker
    that is not empty before their first colon and something behind it. *)
Theorem count_dialogues_shape (x : str) :
  count_dialogues x
  = Z.of_nat (length (filter dialogue_shape (split nl x))).
Proof.
  unfold count_dialogues. rewrite count_loop_filter. simpl. f_equal. f_equal.
  pose proof (split_no_sep nl x) as H.
  induction H as [|l ls Hl _ IH]; [reflexivity|].
  simpl. rewrite (is_dialogue_shape l Hl), IH. reflexivity.
Qed.

(** X5: the count of two texts joined by a newline is the sum of their
    counts. *)
Theorem count_dialogues_additive (x y : str) :
  count_dialogues (x ++ nl :: y)
  = (count_dialogues x + count_dialogues y)%Z.
Proof.
  unfold count_dialogues.
  rewrite split_app_nl, !count_loop_filter, filter_app, length_app.
  lia.
Qed.

(** ** The markdown renderer, composed *)

Section MarkdownMore.

Lemma md_line_blankness (l : str) : is_blank (md_line l) = is_blank l.
Proof.
  unfold md_line, is_blank at 2.
  destruct (strip l) as [|c t] eqn:El; [reflexivity|].
  assert (Hkeep : is_blank (c :: t) = false).
  { unfold is_blank. rewrite <- El, strip_idem, El. reflexivity. }
  destruct (contains colon (c :: t)); [|exact Hkeep].
  destruct (Re.rmatch speaker_re (c :: t)); [|exact Hkeep].
  unfold is_blank. cbn [app]. now rewrite strip_cons_keep.
Qed.

Lemma join_app (sep : str) (a b : list str) :
  a <> [] -> b <> [] -> join sep (a ++ b) = join sep a ++ sep ++ join sep b.
Proof.
  intros Ha Hb. induction a as [|l a IH]; [congruence|].
  destruct a as [|l' a'].
  - destruct b; [congruence|reflexivity].
  - change (join sep ((l :: l' :: a') ++ b))
      with (l ++ sep ++ join sep ((l' :: a') ++ b)).
    rewrite IH by discriminate.
    change (join sep (l :: l' :: a')) with (l ++ sep ++ join sep (l' :: a')).
    now rewrite <- !app_assoc.
Qed.

Lemma split_incl (sep : char) (x : str) :
  Forall (fun l => incl l x) (split sep x).
Proof.
  induction x as [|c x IH]; simpl.
  - constructor; [apply incl_refl|constructor].
  - assert (Hw : Forall (fun l => incl l (c :: x)) (split sep x)).
    { eapply Forall_impl; [|exact IH]. intros l Hl. now apply incl_tl. }
    destruct (c =? sep)%N.
    + constructor; [intros z []|exact Hw].
    + destruct (split sep x) as [|l ls]; [constructor; [|constructor]|].
      * intros z [<-|[]]. now left.
      * inversion Hw as [|? ? Hl Hls]; subst.
        constructor; [|exact Hls].
        intros z [<-|Hz]; [now left|now apply Hl].
Qed.

Lemma rstrip_app_keep (s : str) (c : char) :
  isspace c = false -> rstrip (s ++ [c]) = s ++ [c].
Proof.
  intros H. unfold rstrip. rewrite rev_app_distr. simpl.
  rewrite H. simpl. now rewrite rev_involutive.
Qed.

(** The rendering of a bracketed diagnostic [head: msg]] whose head has
    neither blank ends nor a colon. *)
Lemma md_bracketed (c : char) (head msg : str) :
  isspace c = false -> ~ In colon (c :: head) -> ~ In nl (c :: head) ->
  strip (c :: head) = c :: head -> ~ In nl msg ->
  generate_markdown ((c :: head) ++ [colon; space] ++ msg ++ [rbracket])
  = [star; star] ++ (c :: head) ++ [colon; star; star; space]
    ++ lstrip msg ++ [rbracket].
Proof.
  intros Hc Hcolon Hnl Hfix Hmsg.
  set (b := space :: msg ++ [rbracket]).
  assert (Hline : ~ In nl ((c :: head) ++ colon :: b)).
  { intros H. apply in_app_or in H. destruct H as [H|[H|[H|H]]];
      [tauto|discriminate|discriminate|].
    apply in_app_or in H. destruct H as [H|[H|[]]]; [tauto|discriminate]. }
  unfold generate_markdown.
  change ((c :: head) ++ [colon; space] ++ msg ++ [rbracket])
    with ((c :: head) ++ colon :: b).
  rewrite (split_line nl _ Hline). cbn [map join].
  rewrite (md_line_speaker _ (c :: head) b Hline); [| |exact Hcolon|discriminate].
  - rewrite Hfix. do 3 f_equal.
    unfold b, strip. cbn [lstrip]. replace (isspace space) with true by reflexivity.
    rewrite lstrip_app_keep by reflexivity.
    now rewrite rstrip_app_keep.
  - cbn [app]. rewrite strip_cons_keep by exact Hc. f_equal.
    change (head ++ colon :: b)
      with (head ++ colon :: space :: msg ++ [rbracket]).
    replace (head ++ colon :: space :: msg ++ [rbracket])
      with ((head ++ colon :: space :: msg) ++ [rbracket])
      by (now rewrite <- app_assoc).
    now apply rstrip_app_keep.
Qed.

End MarkdownMore.

(** X6: the markdown is blank in exactly the lines in which the text is
    blank: no blank line is filled, no other line is emptied. *)
Theorem markdown_blank_positions (x : str) :
  map is_blank (split nl (generate_markdown x))
  = map is_blank (split nl x).
Proof.
  rewrite markdown_lines, map_map.
  apply map_ext. apply md_line_blankness.
Qed.

(** X7: the markdown of two texts joined by a newline is the two
    markdowns joined by a newline. *)
Theorem markdown_additive (x y : str) :
  generate_markdown (x ++ nl :: y)
  = generate_markdown x ++ nl :: generate_markdown y.
Proof.
  unfold generate_markdown. rewrite split_app_nl, map_app.
  apply (join_app [nl]); intros H; apply map_eq_nil in H;
    now apply split_nonempty in H.
Qed.

(** X8: a failure text of the completion client, on one line, is rendered
    like a dialogue line whose speaker is the bracket and the words up to
    the colon: the markdown puts these in strong emphasis and drops the
    blanks before the diagnostic. *)
Theorem markdown_of_failure (msg : str) :
  ~ In nl msg ->
  generate_markdown (api_failed msg)
  = u "**[API请求失败:** " ++ lstrip msg ++ u "]"
  /\ generate_markdown (parse_failed msg)
     = u "**[解析响应失败:** " ++ lstrip msg ++ u "]".
Proof.
  intros Hmsg. split.
  - apply (md_bracketed lbracket (u "API请求失败") msg); try exact Hmsg;
      vm_compute; try reflexivity; intuition discriminate.
  - apply (md_bracketed lbracket (u "解析响应失败") msg); try exact Hmsg;
      vm_compute; try reflexivity; intuition discriminate.
Qed.

Lemma markdown_of_failure_witness :
  generate_markdown (api_failed (u "Read timed out."))
  = u "**[API请求失败:** Read timed out.]".
Proof.
  apply (markdown_of_failure (u "Read timed out.")).
  vm_compute. intuition discriminate.
Defined.

(** X9: a text without a colon is rendered by trimming each of its
    lines. *)
Theorem markdown_without_colon (x : str) :
  contains colon x = false ->
  generate_markdown x = join [nl] (map strip (split nl x)).
Proof.
  intros H. apply contains_false in H.
  unfold generate_markdown. f_equal.
  pose proof (split_incl nl x) as Hin.
  induction Hin as [|l ls Hl _ IH]; [reflexivity|].
  simpl. rewrite IH. f_equal.
  unfold md_line.
  destruct (strip l) as [|c t] eqn:El; [reflexivity|].
  replace (contains colon (c :: t)) with false; [reflexivity|].
  symmetry. apply contains_false. intros Hc. apply H, Hl, strip_incl.
  now rewrite El.
Qed.

Lemma markdown_without_colon_witness :
  generate_markdown (u "  The end  ") = u "The end".
Proof.
  apply (markdown_without_colon (u "  The end  ")).
  vm_compute. reflexivity.
Defined.

(** ** The completion client, case by case *)

Section ClientMore.

Variable self : DialogueTranslator.
Variables content filename : str.

Lemma status_passes (r : response) :
  (status_code r < 400 \/ 600 <= status_code r)%Z ->
  raise_for_status r = Ok tt.
Proof.
  intros Hs. unfold raise_for_status.
  replace ((400 <=? status_code r) && (status_code r <? 600))%Z with false;
    [reflexivity|].
  symmetry. apply andb_false_iff.
  destruct Hs; [left; apply Z.leb_gt|right; apply Z.ltb_ge]; lia.
Qed.

Lemma status_fails (r : response) :
  (400 <= status_code r < 600)%Z ->
  raise_for_status r = Raise (RequestException (status_error r)).
Proof.
  intros Hs. unfold raise_for_status.
  replace ((400 <=? status_code r) && (status_code r <? 600))%Z with true;
    [reflexivity|].
  symmetry. apply andb_true_intro. split; [apply Z.leb_le|apply Z.ltb_lt]; lia.
Qed.

(** The exceptions the subscripts and the call of [strip] can end in. *)
Lemma extract_raises (v : json) (e : exn) :
  extract_content v = Raise e ->
  is_handled e = true \/ e = TypeError \/ e = AttributeError.
Proof.
  unfold extract_content. unfold getitem_key at 1.
  destruct v as [| | | |items|d];
    try (intros H; injection H as <-; tauto).
  destruct (assoc (u "choices") d) as [v1|].
  2:{ intros H; injection H as <-. now left. }
  unfold getitem_0.
  assert (Hrest : forall v2,
    match getitem_key v2 (u "message") with
    | Ok m =>
        match getitem_key m (u "content") with
        | Ok text => call_strip text
        | Raise e0 => Raise e0
        end
    | Raise e0 => Raise e0
    end = Raise e ->
    is_handled e = true \/ e = TypeError \/ e = AttributeError).
  { intros v2. unfold getitem_key, call_strip.
    destruct v2 as [| | | |items2|d2];
      try (intros H; injection H as <-; tauto).
    destruct (assoc (u "message") d2) as [m|].
    2:{ intros H; injection H as <-. now left. }
    destruct m as [| | | |items3|d3];
      try (intros H; injection H as <-; tauto).
    destruct (assoc (u "content") d3) as [t|].
    2:{ intros H; injection H as <-. now left. }
    destruct t; try discriminate; intros H; injection H as <-; tauto. }
  destruct v1 as [| | |s|items1|d1];
    try (intros H; injection H as <-; tauto).
  - destruct s as [|c s]; [intros H; injection H as <-; now left|].
    apply Hrest.
  - destruct items1 as [|v2 items1];
      [intros H; injection H as <-; now left|].
    apply Hrest.
Qed.

(** What the [except] clauses let through is nothing they take. *)
Lemma handled_raises (r : result str) (e : exn) :
  handled r = Raise e -> r = Raise e /\ is_handled e = false.
Proof.
  destruct r as [t|e0]; [discriminate|].
  destruct e0; simpl; try discriminate;
    intros H; injection H as <-; now split.
Qed.

End ClientMore.

(** X10: whatever the provider does, one call of the translator sends one
    request, to the fixed address with the fixed time limit, and shows
    nothing on the page; the request holds one user message: the prompt
    around the text cleaned of its tags. *)
Theorem translate_sends_one_request (self : DialogueTranslator)
  (content filename : str) (w : world) :
  exists rq,
    calls (snd (translate_entire_file self content filename w))
    = calls w ++ [rq]
    /\ page (snd (translate_entire_file self content filename w)) = page w
    /\ url rq = API_URL /\ timeout rq = 120%Z
    /\ messages (body rq)
       = [{| role := u "user";
             content := prompt_head ++ clean_tags_from_content content
                          ++ prompt_tail |}]
    /\ Re.search tag_re (clean_tags_from_content content) = false.
Proof.
  exists (translation_request self content).
  rewrite translate_outcome. repeat split. apply sub_tag_clean.
Qed.

(** X11: the translator never raises a request, key or index error:
    these are taken by its [except] clauses, from whatever step they come.
    And once the call has returned a reply and its JSON has been decoded,
    all it can raise is a [TypeError] or an [AttributeError]. *)
Theorem translate_raises_only (self : DialogueTranslator)
  (content filename : str) (w : world) (e : exn) :
  fst (translate_entire_file self content filename w) = Raise e ->
  is_handled e = false
  /\ forall r v,
       provider w (length (calls w)) (translation_request self content)
       = PostReturned r ->
       reply r = Json v ->
       e = TypeError \/ e = AttributeError.
Proof.
  rewrite translate_outcome. cbn [fst]. intros H.
  apply handled_raises in H. destruct H as [Ha Hh].
  split; [exact Hh|].
  intros r v Ho Hr. rewrite Ho in Ha. unfold attempt in Ha.
  destruct (raise_for_status r) as [[]|e1] eqn:Es.
  - unfold response_json in Ha. rewrite Hr in Ha.
    apply extract_raises in Ha. destruct Ha as [Ha|Ha]; [congruence|exact Ha].
  - unfold raise_for_status in Es.
    destruct ((400 <=? status_code r) && (status_code r <? 600))%Z;
      [|discriminate].
    injection Es as <-. injection Ha as <-. discriminate.
Qed.

Lemma translate_raises_only_witness :
  is_handled AttributeError = false
  /\ (AttributeError = TypeError \/ AttributeError = AttributeError).
Proof.
  destruct (translate_raises_only (init [] []) [] [] null_content_world
              AttributeError) as [H1 H2].
  - vm_compute. reflexivity.
  - split; [exact H1|].
    apply (H2 (ok_response (completion JNull)) (completion JNull));
      reflexivity.
Defined.

(** X12: a [RequestException] comes back as the text
    [[API请求失败: diagnostic]]: when [requests.post] raises one, when the
    status is in the 4xx or 5xx range, and when [response.json()] raises
    its [JSONDecodeError] on the body of a reply with another status. *)
Theorem translate_exchange_failure (self : DialogueTranslator)
  (content filename : str) (w : world) (r : response) (msg : str) :
  let o := provider w (length (calls w)) (translation_request self content) in
  o = PostRaised msg
  \/ (o = PostReturned r /\ (400 <= status_code r < 600)%Z
      /\ status_error r = msg)
  \/ (o = PostReturned r /\ (status_code r < 400 \/ 600 <= status_code r)%Z
      /\ reply r = NotJson msg) ->
  fst (translate_entire_file self content filename w) = Ok (api_failed msg).
Proof.
  intros o H. subst o. rewrite translate_outcome. cbn [fst].
  destruct H as [Ho|[[Ho [Hs Hm]]|[Ho [Hs Hr]]]]; rewrite Ho.
  - reflexivity.
  - subst msg. unfold attempt. now rewrite status_fails.
  - unfold attempt, response_json. now rewrite status_passes, Hr.
Qed.

Lemma translate_exchange_failure_witness :
  fst (translate_entire_file (init [] []) (u "Sally: Hi!") []
         {| provider := fun _ _ => PostRaised (u "Read timed out.");
            calls := []; page := [] |})
  = Ok (api_failed (u "Read timed out.")).
Proof.
  apply (translate_exchange_failure (init [] []) (u "Sally: Hi!") []
           {| provider := fun _ _ => PostRaised (u "Read timed out.");
              calls := []; page := [] |}
           (ok_response JNull)).
  left. reflexivity.
Defined.

(** X13: a reply whose JSON is an object without ['choices'], or with an
    empty list of choices, comes back as the text
    [[解析响应失败: diagnostic]], the diagnostic being the key in quotes or
    the message of the index error. *)
Theorem translate_shape_failure (self : DialogueTranslator)
  (content filename : str) (w : world) (r : response)
  (d : list (str * json)) :
  provider w (length (calls w)) (translation_request self content)
  = PostReturned r ->
  (status_code r < 400 \/ 600 <= status_code r)%Z ->
  reply r = Json (JObj d) ->
  (assoc (u "choices") d = None ->
   fst (translate_entire_file self content filename w)
   = Ok (parse_failed (u "'choices'")))
  /\ (assoc (u "choices") d = Some (JArr []) ->
      fst (translate_entire_file self content filename w)
      = Ok (parse_failed (u "list index out of range"))).
Proof.
  intros Ho Hs Hr. rewrite translate_outcome, Ho. cbn [fst].
  unfold attempt, response_json. rewrite (status_passes r Hs), Hr.
  unfold extract_content, getitem_key.
  split; intros ->; reflexivity.
Qed.

Lemma translate_shape_failure_witness :
  fst (translate_entire_file (init [] []) (u "Sally: Hi!") []
         {| provider := fun _ _ =>
              PostReturned (ok_response (JObj [(u "error", JStr (u "busy"))]));
            calls := []; page := [] |})
  = Ok (parse_failed (u "'choices'")).
Proof.
  apply (translate_shape_failure (init [] []) (u "Sally: Hi!") []
           {| provider := fun _ _ =>
                PostReturned (ok_response (JObj [(u "error", JStr (u "busy"))]));
              calls := []; page := [] |}
           (ok_response (JObj [(u "error", JStr (u "busy"))]))
           [(u "error", JStr (u "busy"))]).
  - reflexivity.
  - left. vm_compute. reflexivity.
  - reflexivity.
  - vm_compute. reflexivity.
Defined.

(** X14: a reply of any status outside the 4xx and 5xx ranges whose JSON
    has a text at [choices[0].message.content] (other keys and further
    choices do not matter) comes back as that text, trimmed: the result has
    no blank at either end. *)
Theorem translate_returns_trimmed (self : DialogueTranslator)
  (content filename : str) (w : world) (r : response)
  (d d1 d2 : list (str * json)) (others : list json) (text : str) :
  provider w (length (calls w)) (translation_request self content)
  = PostReturned r ->
  (status_code r < 400 \/ 600 <= status_code r)%Z ->
  reply r = Json (JObj d) ->
  assoc (u "choices") d = Some (JArr (JObj d1 :: others)) ->
  assoc (u "message") d1 = Some (JObj d2) ->
  assoc (u "content") d2 = Some (JStr text) ->
  fst (translate_entire_file self content filename w) = Ok (strip text)
  /\ strip (strip text) = strip text.
Proof.
  intros Ho Hs Hr H0 H1 H2. split; [|apply strip_idem].
  rewrite translate_outcome, Ho. cbn [fst].
  unfold attempt, response_json. rewrite (status_passes r Hs), Hr.
  unfold extract_content, getitem_key. rewrite H0. cbn [getitem_0].
  now rewrite H1, H2.
Qed.

Lemma translate_returns_trimmed_witness :
  fst (translate_entire_file (init [] []) (u "Sally: Hi!") [] helpful_world)
  = Ok (u "Sally: Hello!" ++ [nl] ++ u "Sally: 你好！").
Proof.
  refine (proj1 (translate_returns_trimmed (init [] []) (u "Sally: Hi!") []
           helpful_world
           (ok_response (completion (JStr (u "Sally: Hello!" ++ [nl]
                                             ++ u "Sally: 你好！" ++ [nl]))))
           _ _ _ [] _ eq_refl _ eq_refl eq_refl eq_refl eq_refl)).
  left. vm_compute. reflexivity.
Defined.

(** ** The batch, file by file *)

Section BatchMore.

Variable t : DialogueTranslator.

(** [process_content] under the progress bar of [main]. *)
Lemma process_content_run (text name : str) (w : world) :
  process_content t text name (Some update_progress) w
  = match handled (attempt (provider w (length (calls w))
                              (translation_request t text))) with
    | Ok translated =>
        (Ok (generate_markdown translated, generate_txt translated,
             count_dialogues text),
         show (Progress 10 (u "完成！"))
           (show (Progress 8 (u "正在生成格式..."))
              (sent (translation_request t text) (announced w))))
    | Raise e => (Raise e, sent (translation_request t text) (announced w))
    end.
Proof.
  unfold process_content, bind, notify, effect, update_progress.
  fold (announced w). rewrite translate_outcome.
  change (provider (announced w)) with (provider w).
  change (calls (announced w)) with (calls w).
  destruct (handled _); reflexivity.
Qed.

Lemma count_nonneg (x : str) : (0 <= count_dialogues x)%Z.
Proof.
  unfold count_dialogues. pose proof (count_loop_bounds (split nl x) 0). lia.
Qed.

(** One turn of the loop: it returns, with the batch as it was or with one
    more file stored, and it has sent the requests of its file. *)
Lemma process_file_run (idx : Z) (f : uploaded_file) (b : batch) (w : world) :
  exists b' w',
    process_file t idx f b w = (Ok b', w')
    /\ calls w' = calls w ++ requests_of t [f]
    /\ provider w' = provider w
    /\ (b' = b
        \/ exists text translated,
             utf8_decode (file_value f) = Some text
             /\ b' = stored b (file_name f)
                       {| markdown := generate_markdown translated;
                          txt := translated;
                          dialogue_count := count_dialogues text |}).
Proof.
  unfold process_file, bind, try_except, effect, lift, decode, requests_of.
  cbn [flat_map].
  destruct (utf8_decode (file_value f)) as [text|] eqn:Ed.
  - rewrite process_content_run.
    change (provider (show (FileStart idx (file_name f)) w))
      with (provider w).
    change (calls (show (FileStart idx (file_name f)) w)) with (calls w).
    destruct (handled _) as [translated|e].
    + eexists _, _. split; [reflexivity|].
      cbn [calls provider show sent announced]. rewrite app_nil_r.
      repeat split. right. exists text, translated. split; reflexivity.
    + eexists _, _. split; [reflexivity|].
      cbn [calls provider show sent announced]. rewrite app_nil_r.
      repeat split. now left.
  - eexists _, _. split; [reflexivity|].
    cbn [calls provider show]. rewrite !app_nil_r.
    repeat split. now left.
Qed.

Lemma dict_set_keys (d : results) (k : str) (v : rendered) :
  (NoDup (map fst d) -> NoDup (map fst (dict_set d k v)))
  /\ incl (map fst (dict_set d k v)) (k :: map fst d)
  /\ length (dict_set d k v) <= S (length d).
Proof.
  induction d as [|[k' v'] d IH]; simpl.
  - repeat split; [intros _; repeat constructor; tauto|apply incl_refl|lia].
  - destruct IH as (Hnd & Hincl & Hlen).
    unfold str_eqb. destruct (list_eq_dec N.eq_dec k k') as [->|Hne]; simpl.
    + repeat split; [tauto| |lia].
      intros x [<-|Hx]; [now left|right; now right].
    + repeat split; [| |lia].
      * intros H. inversion H as [|? ? Hnot Hd]; subst.
        constructor; [|now apply Hnd].
        intros Hin. apply Hincl in Hin. destruct Hin as [E|Hin]; tauto || congruence.
      * intros x [<-|Hx]; [right; now left|].
        apply Hincl in Hx. destruct Hx as [<-|Hx]; [now left|right; now right].
Qed.

Lemma file_loop_run (files : list uploaded_file) (idx : Z) (b : batch)
  (w : world) :
  exists b' w',
    file_loop t idx files b w = (Ok b', w')
    /\ calls w' = calls w ++ requests_of t files
    /\ provider w' = provider w
    /\ kept t files b b'.
Proof.
  revert idx b w. induction files as [|f files IH]; intros idx b w.
  - exists b, w. repeat split; simpl; try lia; try tauto.
    + now rewrite app_nil_r.
    + rewrite app_nil_r. apply incl_refl.
  - cbn [file_loop]. unfold bind.
    destruct (process_file_run idx f b w) as (b1 & w1 & -> & Hc1 & Hp1 & Hb1).
    destruct (IH (idx + 1)%Z b1 w1) as (b2 & w2 & -> & Hc2 & Hp2 & Hk).
    exists b2, w2. split; [reflexivity|].
    split; [|split; [congruence|]].
    { rewrite Hc2, Hc1, <- app_assoc. f_equal.
      unfold requests_of. cbn [flat_map]. now rewrite app_nil_r. }
    destruct Hk as [Kc Kt Ks Kn Kk].
    assert (Hlen : length (requests_of t (f :: files))
                   = length (requests_of t [f]) + length (requests_of t files)).
    { unfold requests_of. cbn [flat_map]. now rewrite app_nil_r, length_app. }
    destruct Hb1 as [->|(text & translated & Hd & ->)].
    + constructor; try assumption.
      * rewrite Hlen. lia.
      * intros x Hx. apply Kk in Hx. apply in_app_or in Hx.
        apply in_or_app. destruct Hx; [now left|right; now right].
    + set (r := {| markdown := generate_markdown translated;
                   txt := translated;
                   dialogue_count := count_dialogues text |}) in *.
      destruct (dict_set_keys (batch_results b) (file_name f) r)
        as (Hnd & Hincl & Hl).
      assert (Hone : length (requests_of t [f]) = 1).
      { unfold requests_of. cbn [flat_map]. now rewrite Hd. }
      pose proof (count_nonneg text) as Hpos.
      constructor.
      * rewrite Hlen, Hone. cbn [success_count stored] in Kc. lia.
      * cbn [total_dialogue_count stored dialogue_count r] in Kt.
        unfold r in Kt. cbn [dialogue_count] in Kt. lia.
      * cbn [batch_results success_count stored] in Ks. lia.
      * intros H. apply Kn. cbn [batch_results stored]. now apply Hnd.
      * intros x Hx. apply Kk in Hx. apply in_app_or in Hx.
        apply in_or_app. destruct Hx as [Hx|Hx]; [|right; now right].
        cbn [batch_results stored] in Hx. apply Hincl in Hx.
        destruct Hx as [<-|Hx]; [right; now left|now left].
Qed.

Lemma requests_of_length (files : list uploaded_file) :
  length (requests_of t files) <= length files.
Proof.
  induction files as [|f files IH]; [reflexivity|].
  unfold requests_of in *. cbn [flat_map]. rewrite length_app.
  destruct (utf8_decode (file_value f)); simpl; lia.
Qed.

End BatchMore.

Section MainRun.

(** [main] behind its guards: the loop returns a batch, and [main] ends
    with it unless the archive cannot be built. *)
Lemma main_active (k : char) (key : str) (f : uploaded_file)
  (files : list uploaded_file) (w : world) :
  (Z.of_nat (length (f :: files)) <= MAX_FILES)%Z ->
  exists b w',
    main (k :: key) (f :: files) true w
    = (match batch_results b with
       | [] => Ok (Some b)
       | _ :: _ =>
           match create_download_zip (batch_results b) with
           | Ok _ => Ok (Some b)
           | Raise e => Raise e
           end
       end, w')
    /\ calls w'
       = calls w ++ requests_of (init (k :: key) MODEL_NAME) (f :: files)
    /\ kept (init (k :: key) MODEL_NAME) (f :: files) empty_batch b
    /\ fst (file_loop (init (k :: key) MODEL_NAME) 1 (f :: files)
              empty_batch (loop_start (f :: files) w)) = Ok b.
Proof.
  intros Hn. unfold main.
  set (n := Z.of_nat (length (f :: files))) in *.
  replace (n >? MAX_FILES)%Z with false
    by (symmetry; pose proof (Zgt_cases n MAX_FILES) as H;
        destruct (n >? MAX_FILES)%Z; [lia|reflexivity]).
  set (t := init (k :: key) MODEL_NAME).
  destruct (file_loop_run t (f :: files) 1 empty_batch
              (show (InfoRequests n)
                 (show (FileList (map file_name (f :: files)))
                    (show (SuccessUploaded n) w))))
    as (b & w1 & Hrun & Hc & _ & Hk).
  unfold empty_batch in Hrun.
  unfold bind, effect, ret, lift. rewrite Hrun.
  exists b.
  destruct (success_count b >? 0)%Z;
    destruct (batch_results b) as [|e0 rs];
    try destruct (create_download_zip (e0 :: rs));
    eexists; (split; [reflexivity|split; [exact Hc|split; [exact Hk|]]]);
    unfold loop_start, empty_batch; fold n; now rewrite Hrun.
Qed.

(** [main], from the outside: the requests it sends, what it can raise,
    and what holds of the batch it ends with. *)
Lemma main_run (api_key : str) (files : list uploaded_file) (start : bool)
  (w : world) :
  calls (snd (main api_key files start w))
  = calls w ++ (if active api_key files start
                then requests_of (init api_key MODEL_NAME) files else [])
  /\ (forall e, fst (main api_key files start w) = Raise e ->
      active api_key files start = true
      /\ exists b,
           fst (file_loop (init api_key MODEL_NAME) 1 files empty_batch
                  (loop_start files w)) = Ok b
           /\ create_download_zip (batch_results b) = Raise e)
  /\ (forall b, fst (main api_key files start w) = Ok (Some b) ->
        active api_key files start = true
        /\ kept (init api_key MODEL_NAME) files empty_batch b).
Proof.
  destruct api_key as [|k key].
  { cbn. rewrite app_nil_r. repeat split; intros; discriminate. }
  destruct files as [|f files].
  { cbn. rewrite app_nil_r. repeat split; intros; discriminate. }
  unfold active.
  destruct (Z.of_nat (length (f :: files)) <=? MAX_FILES)%Z eqn:En.
  - apply Z.leb_le in En. destruct start.
    + destruct (main_active k key f files w En)
        as (b & w' & -> & Hc & Hk & Hl).
      cbn [fst snd andb]. split; [exact Hc|].
      destruct (batch_results b) as [|e0 rs] eqn:Er.
      * split; [discriminate|]. intros b' H; injection H as <-. now split.
      * destruct (create_download_zip (e0 :: rs)) as [a|e1] eqn:Ez.
        -- split; [discriminate|]. intros b' H; injection H as <-. now split.
        -- split; [|discriminate].
           intros e H; injection H as <-. split; [reflexivity|].
           exists b. split; [exact Hl|]. now rewrite Er.
    + unfold main.
      replace (Z.of_nat (length (f :: files)) >? MAX_FILES)%Z with false
        by (symmetry; pose proof (Zgt_cases (Z.of_nat (length (f :: files)))
                                    MAX_FILES) as H;
            destruct (Z.of_nat (length (f :: files)) >? MAX_FILES)%Z;
            [lia|reflexivity]).
      cbn. rewrite app_nil_r. repeat split; intros; discriminate.
  - apply Z.leb_gt in En. unfold main.
    replace (Z.of_nat (length (f :: files)) >? MAX_FILES)%Z with true
      by (symmetry; apply Z.gtb_lt; lia).
    cbn. rewrite app_nil_r. repeat split; intros; discriminate.
Qed.

End MainRun.

Section DictFacts.

Lemma assoc_dict_set (d : results) (k : str) (v : rendered) :
  assoc k (dict_set d k v) = Some v
  /\ forall k', k' <> k -> assoc k' (dict_set d k v) = assoc k' d.
Proof.
  induction d as [|[k0 v0] d [IH1 IH2]]; simpl.
  - rewrite str_eqb_refl. split; [reflexivity|].
    intros k' H. now rewrite (str_eqb_neq k' k H).
  - destruct (str_eqb k k0) eqn:E; simpl.
    + unfold str_eqb in E. destruct (list_eq_dec N.eq_dec k k0); [subst|discriminate].
      rewrite str_eqb_refl. split; [reflexivity|].
      intros k' H. now rewrite (str_eqb_neq k' k0 H).
    + rewrite E. split; [exact IH1|].
      intros k' H. destruct (str_eqb k' k0); [reflexivity|now apply IH2].
Qed.

End DictFacts.

(** X15: under the progress bar of [main], [process_content] sends one
    request and moves the bar to 0.1 and 0.3 before the translation, and
    to 0.8 and 1.0 behind it only when the translator has returned. *)
Theorem process_content_progress (t : DialogueTranslator) (text name : str)
  (w : world) :
  calls (snd (process_content t text name (Some update_progress) w))
  = calls w ++ [translation_request t text]
  /\ page (snd (process_content t text name (Some update_progress) w))
     = page w
       ++ [Progress 1 (u "开始翻译..."); Progress 3 (u "正在调用API翻译...")]
       ++ match fst (process_content t text name (Some update_progress) w)
          with
          | Ok _ => [Progress 8 (u "正在生成格式..."); Progress 10 (u "完成！")]
          | Raise _ => []
          end.
Proof.
  rewrite process_content_run.
  destruct (handled _); cbn [fst snd calls page show sent announced];
    (split; [reflexivity|]); now rewrite <- ?app_assoc.
Qed.


(** X17: a file that is not valid UTF-8 is reported as failed, costs no
    request and leaves the batch as it was. *)
Theorem undecodable_file_skipped (t : DialogueTranslator) (idx : Z)
  (f : uploaded_file) (b : batch) (w : world) :
  utf8_decode (file_value f) = None ->
  process_file t idx f b w
  = (Ok b,
     {| provider := provider w;
        calls := calls w;
        page := page w ++ [FileStart idx (file_name f);
                           FileFailed (file_name f) UnicodeDecodeError] |}).
Proof.
  intros H.
  unfold process_file, bind, try_except, effect, lift, decode, ret.
  rewrite H. unfold show. cbn [provider calls page].
  now rewrite <- app_assoc.
Qed.

Lemma undecodable_file_skipped_witness :
  fst (process_file (init [] []) 1 latin1_file empty_batch helpful_world)
  = Ok empty_batch.
Proof.
  rewrite (undecodable_file_skipped (init [] []) 1 latin1_file empty_batch
             helpful_world).
  - reflexivity.
  - vm_compute. reflexivity.
Defined.

(** X18: a file whose translation raises is reported as failed with that
    exception and leaves the batch as it was; its request has been sent. *)
Theorem failed_file_skipped (t : DialogueTranslator) (idx : Z)
  (f : uploaded_file) (b : batch) (w : world) (text : str) (e : exn) :
  utf8_decode (file_value f) = Some text ->
  fst (translate_entire_file t text (file_name f)
         (announced (show (FileStart idx (file_name f)) w))) = Raise e ->
  process_file t idx f b w
  = (Ok b,
     {| provider := provider w;
        calls := calls w ++ [translation_request t text];
        page := page w ++ [FileStart idx (file_name f);
                           Progress 1 (u "开始翻译...");
                           Progress 3 (u "正在调用API翻译...");
                           FileFailed (file_name f) e] |}).
Proof.
  intros Hd He. rewrite translate_outcome in He. cbn [fst] in He.
  unfold process_file, bind, try_except, effect, lift, decode, ret.
  rewrite Hd, process_content_run.
  change (provider (show (FileStart idx (file_name f)) w)) with (provider w).
  change (calls (show (FileStart idx (file_name f)) w)) with (calls w).
  change (provider (announced (show (FileStart idx (file_name f)) w)))
    with (provider w) in He.
  change (calls (announced (show (FileStart idx (file_name f)) w)))
    with (calls w) in He.
  rewrite He. unfold show, sent, announced, show.
  cbn [provider calls page]. now rewrite <- !app_assoc.
Qed.

Lemma failed_file_skipped_witness :
  fst (process_file (init [] []) 1
         {| file_name := u "a.txt"; file_value := [] |}
         empty_batch null_content_world)
  = Ok empty_batch.
Proof.
  rewrite (failed_file_skipped (init [] []) 1
             {| file_name := u "a.txt"; file_value := [] |}
             empty_batch null_content_world [] AttributeError).
  - reflexivity.
  - reflexivity.
  - vm_compute. reflexivity.
Defined.

(** X19: a file whose translation returns is stored under its name: the
    entry holds the markdown of the translation, the translation itself
    and the count of the original text; the entries of other names stay,
    and the count of processed files grows by one. *)
Theorem translated_file_stored (t : DialogueTranslator) (idx : Z)
  (f : uploaded_file) (b : batch) (w : world) (text translated : str) :
  utf8_decode (file_value f) = Some text ->
  fst (translate_entire_file t text (file_name f)
         (announced (show (FileStart idx (file_name f)) w)))
  = Ok translated ->
  exists b',
    fst (process_file t idx f b w) = Ok b'
    /\ assoc (file_name f) (batch_results b')
       = Some {| markdown := generate_markdown translated;
                 txt := translated;
                 dialogue_count := count_dialogues text |}
    /\ (forall k, k <> file_name f ->
          assoc k (batch_results b') = assoc k (batch_results b))
    /\ success_count b' = (success_count b + 1)%Z
    /\ total_dialogue_count b'
       = (total_dialogue_count b + count_dialogues text)%Z.
Proof.
  intros Hd He. rewrite translate_outcome in He. cbn [fst] in He.
  unfold process_file, bind, try_except, effect, lift, decode, ret.
  rewrite Hd, process_content_run.
  change (provider (show (FileStart idx (file_name f)) w)) with (provider w).
  change (calls (show (FileStart idx (file_name f)) w)) with (calls w).
  change (provider (announced (show (FileStart idx (file_name f)) w)))
    with (provider w) in He.
  change (calls (announced (show (FileStart idx (file_name f)) w)))
    with (calls w) in He.
  rewrite He. cbn [fst]. eexists. split; [reflexivity|].
  cbn [batch_results success_count total_dialogue_count].
  destruct (assoc_dict_set (batch_results b) (file_name f)
              {| markdown := generate_markdown translated;
                 txt := generate_txt translated;
                 dialogue_count := count_dialogues text |}) as [H1 H2].
  repeat split; [exact H1|exact H2].
Qed.

Lemma translated_file_stored_witness :
  exists b',
    fst (process_file (init [] []) 1
           {| file_name := u "a.txt"; file_value := [] |}
           empty_batch helpful_world) = Ok b'
    /\ success_count b' = 1%Z.
Proof.
  destruct (translated_file_stored (init [] []) 1
              {| file_name := u "a.txt"; file_value := [] |}
              empty_batch helpful_world []
              (u "Sally: Hello!" ++ [nl] ++ u "Sally: 你好！"))
    as (b' & H1 & _ & _ & H2 & _).
  - reflexivity.
  - vm_compute. reflexivity.
  - exists b'. split; [exact H1|exact H2].
Defined.

(** X20: [main] sends requests only behind its guards (a key, between one
    and [MAX_FILES] uploads, the start button pressed), and then exactly
    one for each upload that is valid UTF-8, in upload order. *)
Theorem main_requests (api_key : str) (files : list uploaded_file)
  (start : bool) (w : world) :
  calls (snd (main api_key files start w))
  = calls w ++ (if active api_key files start
                then requests_of (init api_key MODEL_NAME) files else []).
Proof. apply main_run. Qed.

(** X21: one run of [main] sends at most [MAX_FILES] requests. *)
Theorem main_request_bound (api_key : str) (files : list uploaded_file)
  (start : bool) (w : world) :
  (Z.of_nat (length (calls (snd (main api_key files start w))))
   <= Z.of_nat (length (calls w)) + MAX_FILES)%Z.
Proof.
  rewrite (proj1 (main_run api_key files start w)), length_app.
  unfold active.
  destruct api_key as [|k key]; [simpl; unfold MAX_FILES; lia|].
  destruct files as [|f files]; [simpl; unfold MAX_FILES; lia|].
  destruct (Z.of_nat (length (f :: files)) <=? MAX_FILES)%Z eqn:En;
    [|simpl; unfold MAX_FILES; lia].
  apply Z.leb_le in En.
  destruct start; [|simpl; unfold MAX_FILES; lia].
  cbn [andb].
  pose proof (requests_of_length (init (k :: key) MODEL_NAME) (f :: files)).
  lia.
Qed.

(** X22: no failure of a file leaves [main]: whatever [main] raises was
    raised by [create_download_zip] on the results of the finished loop,
    behind the guards. *)
Theorem main_raises_only (api_key : str) (files : list uploaded_file)
  (start : bool) (w : world) (e : exn) :
  fst (main api_key files start w) = Raise e ->
  active api_key files start = true
  /\ exists b,
       fst (file_loop (init api_key MODEL_NAME) 1 files empty_batch
              (loop_start files w)) = Ok b
       /\ create_download_zip (batch_results b) = Raise e.
Proof. apply main_run. Qed.

Lemma main_raises_only_witness :
  exists b,
    fst (file_loop (init (u "sk-key") MODEL_NAME) 1 one_file empty_batch
           (loop_start one_file surrogate_world)) = Ok b
    /\ create_download_zip (batch_results b) = Raise UnicodeEncodeError.
Proof.
  apply (main_raises_only (u "sk-key") one_file true surrogate_world
           UnicodeEncodeError).
  vm_compute. reflexivity.
Defined.

(** X23: when [main] ends with a batch, the count of processed files lies
    between the number of entries of the results and the number of uploads
    that are valid UTF-8, which is at most [MAX_FILES]; the total of
    dialogues is not negative; and the results have distinct keys, all of
    them names of uploads. *)
Theorem main_summary (api_key : str) (files : list uploaded_file)
  (start : bool) (w : world) (b : batch) :
  fst (main api_key files start w) = Ok (Some b) ->
  (Z.of_nat (length (batch_results b)) <= success_count b
   <= Z.of_nat (length (requests_of (init api_key MODEL_NAME) files)))%Z
  /\ (Z.of_nat (length (requests_of (init api_key MODEL_NAME) files))
      <= MAX_FILES)%Z
  /\ (0 <= total_dialogue_count b)%Z
  /\ NoDup (map fst (batch_results b))
  /\ incl (map fst (batch_results b)) (map file_name files).
Proof.
  intros H.
  destruct (proj2 (proj2 (main_run api_key files start w)) b H)
    as [Ha [Kc Kt Ks Kn Kk]].
  cbn [empty_batch batch_results success_count total_dialogue_count
       length map app] in *.
  assert (Hmax : (Z.of_nat (length files) <= MAX_FILES)%Z).
  { unfold active in Ha. destruct api_key; [discriminate|].
    destruct files; [discriminate|].
    apply andb_prop in Ha. now apply Z.leb_le. }
  pose proof (requests_of_length (init api_key MODEL_NAME) files).
  repeat split; try lia; [apply Kn; constructor|exact Kk].
Qed.

Lemma main_summary_witness :
  exists b,
    fst (main (u "sk-key") one_file true helpful_world) = Ok (Some b)
    /\ NoDup (map fst (batch_results b)).
Proof.
  assert (H : exists b,
             fst (main (u "sk-key") one_file true helpful_world)
             = Ok (Some b)).
  { eexists. vm_compute. reflexivity. }
  destruct H as [b H]. exists b. split; [exact H|].
  exact (proj1 (proj2 (proj2 (proj2
           (main_summary (u "sk-key") one_file true helpful_world b H))))).
Defined.

(** ** The codec and the bundle *)

Ltac nlia := zify; Z.to_euclidean_division_equations; lia.

Section Codec.

Local Open Scope N_scope.

Lemma to_N_octet (n : N) : n < 256 -> Byte.to_N (octet n) = n.
Proof.
  intros H. unfold octet. destruct (Byte.of_N n) as [b|] eqn:E.
  - now apply Byte.to_of_N.
  - apply Byte.of_N_None_iff in E. lia.
Qed.

Lemma land_63 (x : N) : N.land x 63 = x mod 64.
Proof. change 63 with (N.ones 6). now rewrite N.land_ones. Qed.
Lemma land_31 (x : N) : N.land x 31 = x mod 32.
Proof. change 31 with (N.ones 5). now rewrite N.land_ones. Qed.
Lemma land_15 (x : N) : N.land x 15 = x mod 16.
Proof. change 15 with (N.ones 4). now rewrite N.land_ones. Qed.
Lemma land_7 (x : N) : N.land x 7 = x mod 8.
Proof. change 7 with (N.ones 3). now rewrite N.land_ones. Qed.
Lemma shiftr_6 (x : N) : N.shiftr x 6 = x / 64.
Proof. now rewrite N.shiftr_div_pow2. Qed.
Lemma shiftr_12 (x : N) : N.shiftr x 12 = x / 4096.
Proof. now rewrite N.shiftr_div_pow2. Qed.
Lemma shiftr_18 (x : N) : N.shiftr x 18 = x / 262144.
Proof. now rewrite N.shiftr_div_pow2. Qed.
Lemma shiftl_6 (x : N) : N.shiftl x 6 = x * 64.
Proof. now rewrite N.shiftl_mul_pow2. Qed.
Lemma shiftl_12 (x : N) : N.shiftl x 12 = x * 4096.
Proof. now rewrite N.shiftl_mul_pow2. Qed.
Lemma shiftl_18 (x : N) : N.shiftl x 18 = x * 262144.
Proof. now rewrite N.shiftl_mul_pow2. Qed.

Ltac bits :=
  rewrite ?land_63, ?land_31, ?land_15, ?land_7, ?shiftr_6, ?shiftr_12,
    ?shiftr_18, ?shiftl_6, ?shiftl_12, ?shiftl_18.

Ltac settle :=
  repeat match goal with
    | |- context [(?a <? ?b)] =>
        first [ replace (a <? b) with true by (symmetry; apply N.ltb_lt; nlia)
              | replace (a <? b) with false by (symmetry; apply N.ltb_ge; nlia) ]
    | |- context [(?a <=? ?b)] =>
        first [ replace (a <=? b) with true by (symmetry; apply N.leb_le; nlia)
              | replace (a <=? b) with false by (symmetry; apply N.leb_gt; nlia) ]
    end.

Lemma some_inj (A : Type) (a b : A) : Some a = Some b -> a = b.
Proof. congruence. Qed.

Lemma continuation_octet (m : N) :
  m < 64 -> continuation (octet (128 + m)) = Some m.
Proof.
  intros H. unfold continuation. rewrite to_N_octet by lia.
  cbv zeta. settle. cbn [andb]. bits. f_equal. nlia.
Qed.

Lemma decode_encode_char (c : char) (bs rest : bytes) :
  encode_char c = Some bs ->
  utf8_decode (bs ++ rest) = option_map (cons c) (utf8_decode rest).
Proof.
  unfold encode_char, is_surrogate.
  destruct (c <? 128) eqn:E1; [apply N.ltb_lt in E1|apply N.ltb_ge in E1].
  { intros H; apply some_inj in H; subst bs. cbn [app utf8_decode]. cbv zeta.
    rewrite to_N_octet by lia. now settle. }
  destruct (c <? 2048) eqn:E2; [apply N.ltb_lt in E2|apply N.ltb_ge in E2].
  { intros H; apply some_inj in H; subst bs. cbn [app utf8_decode]. cbv zeta. bits.
    rewrite to_N_octet by nlia.
    rewrite continuation_octet by nlia. settle. bits. settle.
    do 2 f_equal. nlia. }
  destruct (c <? 65536) eqn:E3; [apply N.ltb_lt in E3|apply N.ltb_ge in E3].
  { destruct ((55296 <=? c) && (c <=? 57343)) eqn:Es; [discriminate|].
    intros H; apply some_inj in H; subst bs. cbn [app utf8_decode]. cbv zeta. bits.
    rewrite to_N_octet by nlia.
    rewrite !continuation_octet by nlia. settle. bits.
    replace ((224 + c / 4096) mod 16 * 4096 + (c / 64) mod 64 * 64 + c mod 64)
      with c by nlia.
    unfold is_surrogate. rewrite Es. settle. reflexivity. }
  destruct (c <? 1114112) eqn:E4; [apply N.ltb_lt in E4|discriminate].
  intros H; apply some_inj in H; subst bs. cbn [app utf8_decode]. cbv zeta. bits.
  rewrite to_N_octet by nlia.
  rewrite !continuation_octet by nlia. settle. bits.
  replace ((240 + c / 262144) mod 8 * 262144 + (c / 4096) mod 64 * 4096
           + (c / 64) mod 64 * 64 + c mod 64) with c by nlia.
  settle. reflexivity.
Qed.


(** Decoding undoes encoding. *)
Lemma utf8_round_trip (s : str) (b : bytes) :
  utf8_encode s = Some b -> utf8_decode b = Some s.
Proof.
  revert b. induction s as [|c s IH]; intros b; simpl.
  - intros H. apply some_inj in H. now subst b.
  - destruct (encode_char c) as [bc|] eqn:Ec; [|discriminate].
    destruct (utf8_encode s) as [bs|]; [|discriminate].
    intros H. apply some_inj in H. subst b.
    rewrite (decode_encode_char c bc bs Ec), (IH bs eq_refl). reflexivity.
Qed.

End Codec.

Section BundleMore.

Lemma utf8_some (s : str) (b : bytes) : utf8_encode s = Some b -> utf8 s = b.
Proof. intros H. unfold utf8. now rewrite H. Qed.

(** When the loop returns, every rendering had an encoding and no name
    was refused, and the members are the stored members of the entries. *)
Lemma zip_loop_ok (rs : results) (acc a : archive) :
  zip_loop rs acc = Ok a ->
  a = acc ++ flat_map stored_members rs
  /\ forall f r, In (f, r) rs ->
       utf8_encode (markdown r) <> None /\ utf8_encode (txt r) <> None
       /\ name_error (md_member_name f) = None
       /\ name_error (txt_member_name f) = None.
Proof.
  revert acc a. induction rs as [|[f0 r0] rs IH]; intros acc a H.
  - simpl in H. injection H as <-. simpl. rewrite app_nil_r.
    split; [reflexivity|intros f r []].
  - cbn [zip_loop] in H. unfold encode, writestr in H.
    destruct (utf8_encode (markdown r0)) as [bm|] eqn:Em; [|discriminate].
    destruct (name_error (md_member_name f0)) eqn:Nm; [discriminate|].
    destruct (utf8_encode (txt r0)) as [bt|] eqn:Et; [|discriminate].
    destruct (name_error (txt_member_name f0)) eqn:Nt; [discriminate|].
    destruct (IH _ _ H) as [-> Hall]. split.
    + cbn [flat_map].
      change (stored_members (f0, r0))
        with [{| member_name := zip_name (md_member_name f0);
                 member_data := utf8 (markdown r0) |};
              {| member_name := zip_name (txt_member_name f0);
                 member_data := utf8 (txt r0) |}].
      rewrite (utf8_some _ _ Em), (utf8_some _ _ Et).
      now rewrite <- !app_assoc.
    + intros f r [E|Hin]; [|now apply Hall].
      injection E as <- <-. rewrite Em, Et.
      repeat split; discriminate || assumption.
Qed.

End BundleMore.

(** X24: building the archive fails, with no archive returned, when a
    rendering has no UTF-8 encoding (a lone surrogate) or when a member
    name is refused: empty before its first NUL character, without UTF-8
    encoding, or longer than 65535 octets. *)
Theorem bundle_fails_when (rs : results) (f : str) (r : rendered) :
  In (f, r) rs ->
  utf8_encode (markdown r) = None \/ utf8_encode (txt r) = None
  \/ name_error (md_member_name f) <> None
  \/ name_error (txt_member_name f) <> None ->
  exists e, create_download_zip rs = Raise e.
Proof.
  intros Hin Hbad.
  destruct (create_download_zip rs) as [a|e] eqn:E; [|now exists e].
  exfalso. unfold create_download_zip in E.
  destruct (zip_loop_ok rs [] a E) as [_ Hall].
  destruct (Hall f r Hin) as (Hm & Ht & Nm & Nt).
  destruct Hbad as [H|[H|[H|H]]]; congruence.
Qed.

Lemma bundle_fails_when_witness :
  exists e, create_download_zip surrogate_name_results = Raise e.
Proof.
  apply (bundle_fails_when surrogate_name_results
           ([55296%N] ++ u ".txt") (plain (u "x"))).
  - now left.
  - right. right. left. vm_compute. discriminate.
Defined.

(** X25: when the archive is built, its members decode, in order, to the
    markdown and the text of each entry: what is bundled is what was
    rendered. *)
Theorem bundle_round_trip (rs : results) (a : archive) :
  create_download_zip rs = Ok a ->
  map (fun m => utf8_decode (member_data m)) a
  = flat_map (fun e => [Some (markdown (snd e)); Some (txt (snd e))]) rs.
Proof.
  intros H. unfold create_download_zip in H.
  destruct (zip_loop_ok rs [] a H) as [-> Henc]. clear H.
  cbn [app].
  induction rs as [|[f r] rs IH]; [reflexivity|].
  destruct (Henc f r (or_introl eq_refl)) as (Hm & Ht & _).
  cbn [flat_map].
  change (stored_members (f, r))
    with [{| member_name := zip_name (md_member_name f);
             member_data := utf8 (markdown r) |};
          {| member_name := zip_name (txt_member_name f);
             member_data := utf8 (txt r) |}].
  cbn [map app fst snd member_data].
  destruct (utf8_encode (markdown r)) as [bm|] eqn:Em; [|congruence].
  destruct (utf8_encode (txt r)) as [bt|] eqn:Et; [|congruence].
  rewrite (utf8_some _ _ Em), (utf8_some _ _ Et).
  rewrite (utf8_round_trip _ _ Em), (utf8_round_trip _ _ Et).
  do 2 f_equal. apply IH. intros f' r' Hin. apply (Henc f' r'). now right.
Qed.

Lemma bundle_round_trip_witness :
  map (fun m => utf8_decode (member_data m))
    (flat_map entry_members [(u "a.txt", plain (u "你好"))])
  = [Some (u "你好"); Some (u "你好")].
Proof.
  apply (bundle_round_trip [(u "a.txt", plain (u "你好"))]).
  vm_compute. reflexivity.
Defined.

(** X26: an upload that holds the UTF-8 encoding of a text costs one
    request, and the request carries the prompt around that very text,
    cleaned of its tags. *)
Theorem upload_text_is_sent (t : DialogueTranslator) (idx : Z)
  (f : uploaded_file) (b : batch) (w : world) (text : str) :
  utf8_encode text = Some (file_value f) ->
  exists rq,
    calls (snd (process_file t idx f b w)) = calls w ++ [rq]
    /\ messages (body rq)
       = [{| role := u "user";
             content := prompt_head ++ clean_tags_from_content text
                          ++ prompt_tail |}].
Proof.
  intros H. exists (translation_request t text).
  destruct (process_file_run t idx f b w) as (b' & w' & -> & Hc & _).
  cbn [snd]. rewrite Hc. unfold requests_of. cbn [flat_map].
  rewrite (utf8_round_trip text (file_value f) H).
  now rewrite app_nil_r.
Qed.

Lemma upload_text_is_sent_witness :
  exists rq,
    calls (snd (process_file (init [] []) 1
                  {| file_name := u "talk.txt";
                     file_value := utf8 (u "Sally: [warm] Hello!") |}
                  empty_batch helpful_world)) = [] ++ [rq]
    /\ messages (body rq)
       = [{| role := u "user";
             content := prompt_head
                          ++ clean_tags_from_content (u "Sally: [warm] Hello!")
                          ++ prompt_tail |}].
Proof.
  apply (upload_text_is_sent (init [] []) 1
           {| file_name := u "talk.txt";
              file_value := utf8 (u "Sally: [warm] Hello!") |}
           empty_batch helpful_world (u "Sally: [warm] Hello!")).
  vm_compute. reflexivity.
Defined.

(** ** Member names and failed requests *)

Section Names.

Lemma rfind_none (c : char) (s : str) : ~ In c s -> rfind c s = None.
Proof.
  induction s as [|x s IH]; simpl; intros H; [reflexivity|].
  rewrite IH by tauto.
  destruct (x =? c)%N eqn:E; [|reflexivity].
  apply N.eqb_eq in E. tauto.
Qed.

Lemma rfind_last (c : char) (a b : str) :
  ~ In c b -> rfind c (a ++ c :: b) = Some (length a).
Proof.
  intros H. induction a as [|x a IH]; simpl.
  - now rewrite (rfind_none c b H), N.eqb_refl.
  - now rewrite IH.
Qed.

End Names.

Lemma stem_of_plain_name (base ext : str) :
  base <> [] -> ext <> [] ->
  ~ In slash base -> ~ In slash ext -> ~ In period ext ->
  path_stem (base ++ period :: ext) = base.
Proof.
  intros Hb He Hsb Hse Hpe.
  unfold path_stem, path_name.
  rewrite split_line.
  - cbn [filter].
    replace (str_eqb (base ++ period :: ext) []) with false
      by (symmetry; apply str_eqb_neq; destruct base; discriminate).
    replace (str_eqb (base ++ period :: ext) [period]) with false.
    + cbn [orb negb last]. rewrite (rfind_last period base ext Hpe).
      replace (0 <? length base) with true
        by (symmetry; apply Nat.ltb_lt; destruct base; simpl; [congruence|lia]).
      replace (S (length base) <? length (base ++ period :: ext)) with true.
      * cbn [andb]. rewrite firstn_app, Nat.sub_diag, firstn_all.
        cbn [firstn]. apply app_nil_r.
      * symmetry. apply Nat.ltb_lt. rewrite length_app. simpl.
        destruct ext; simpl; [congruence|lia].
    + symmetry. apply str_eqb_neq. intros E.
      apply (f_equal (@length char)) in E. rewrite length_app in E.
      simpl in E. destruct base, ext; simpl in E; congruence || lia.
  - intros H. apply in_app_or in H. destruct H as [H|[H|H]];
      [tauto|discriminate|tauto].
Qed.

(** X27: for an upload named [base.ext], with no slash in the name, no
    dot in the extension and neither part empty, whose two member names
    [base_translated.md] and [base_translated.txt] are names that [zipfile]
    stores as they are, and whose renderings have a UTF-8 encoding, the
    archive holds exactly these two members, with the encodings of the
    markdown and of the text. *)
Theorem member_names_of_plain_name (base ext : str) (r : rendered) :
  base <> [] -> ext <> [] ->
  ~ In slash base -> ~ In slash ext -> ~ In period ext ->
  storable (base ++ u "_translated.md") = true ->
  storable (base ++ u "_translated.txt") = true ->
  utf8_encode (markdown r) <> None -> utf8_encode (txt r) <> None ->
  create_download_zip [(base ++ period :: ext, r)]
  = Ok [{| member_name := base ++ u "_translated.md";
           member_data := utf8 (markdown r) |};
        {| member_name := base ++ u "_translated.txt";
           member_data := utf8 (txt r) |}].
Proof.
  intros Hb He Hsb Hse Hpe Sm St Hm Ht.
  pose proof (stem_of_plain_name base ext Hb He Hsb Hse Hpe) as Hstem.
  unfold create_download_zip.
  rewrite (zip_loop_members [(base ++ period :: ext, r)] []).
  - cbn [flat_map entry_members app fst snd].
    unfold md_member_name, txt_member_name. now rewrite Hstem.
  - intros f' r' [E|[]]. injection E as <- <-.
    unfold md_member_name, txt_member_name. rewrite Hstem. tauto.
Qed.

Lemma member_names_of_plain_name_witness :
  create_download_zip [(u "scene.v2.txt", plain (u "Hi"))]
  = Ok [{| member_name := u "scene.v2_translated.md";
           member_data := utf8 (u "Hi") |};
        {| member_name := u "scene.v2_translated.txt";
           member_data := utf8 (u "Hi") |}].
Proof.
  apply (member_names_of_plain_name (u "scene.v2") (u "txt") (plain (u "Hi")));
    vm_compute; intuition discriminate.
Defined.

(** X28: a file whose request fails on the exchange is nevertheless
    stored and counted as processed: its text is the failure text, its
    markdown the rendering of that text, its count the count of the
    original. *)
Theorem failed_request_is_stored (t : DialogueTranslator) (idx : Z)
  (f : uploaded_file) (b : batch) (w : world) (text msg : str) :
  utf8_decode (file_value f) = Some text ->
  provider w (length (calls w)) (translation_request t text)
  = PostRaised msg ->
  fst (process_file t idx f b w)
  = Ok (stored b (file_name f)
          {| markdown := generate_markdown (api_failed msg);
             txt := api_failed msg;
             dialogue_count := count_dialogues text |}).
Proof.
  intros Hd Hp.
  unfold process_file, bind, try_except, effect, lift, decode, ret.
  rewrite Hd, process_content_run.
  change (provider (show (FileStart idx (file_name f)) w)) with (provider w).
  change (calls (show (FileStart idx (file_name f)) w)) with (calls w).
  rewrite Hp. reflexivity.
Qed.

Lemma failed_request_is_stored_witness :
  exists b,
    fst (process_file (init [] []) 1
           {| file_name := u "a.txt"; file_value := [] |} empty_batch
           {| provider := fun _ _ => PostRaised (u "Read timed out.");
              calls := []; page := [] |}) = Ok b
    /\ success_count b = 1%Z.
Proof.
  eexists. split.
  - apply (failed_request_is_stored (init [] []) 1
             {| file_name := u "a.txt"; file_value := [] |} empty_batch
             {| provider := fun _ _ => PostRaised (u "Read timed out.");
                calls := []; page := [] |} [] (u "Read timed out."));
      reflexivity.
  - reflexivity.
Defined.
